(** * Verification of the asynchronous URL fetcher ([src/6/async_http_mod.py])

    The development embeds [URLFetcher._fetch_single_url], [URLFetcher.fetch_urls],
    [read_urls_from_file] and [fetch_urls_from_file] and proves the properties
    of the retry protocol, of the statistics and sink, and of the semaphore
    discipline.

    Modelling conventions.
    - Python [int]s are [Z]; [range(n)] is the list [0; ...; n-1] (empty when
      [n <= 0]).
    - A Python exception is a value [PyExc]: its class (as far as the [except]
      clauses of the source distinguish classes) and its [str(e)].
    - The HTTP transport ([session.get], [response.text]) and [json.loads] are
      external: the transport is an oracle answering the n-th call of a task,
      [json.loads] is a parameter of the fetcher's environment.
    - [time.time()] readings come from the environment on an integer clock.
    - A [str] is a Rocq [string] with one character per code point. A Rocq
      character holds a code point below 256, so the texts of the model are
      those of that range; a text with a code point above U+00FF is no input
      of the model.
    - Calls to [logger] have no effect on results, statistics or the sink and
      are left out.
    - [open(output_file, "w")] is taken to succeed; it truncates the sink.
      Writing a record ([json.dumps], [f.write], [f.flush]) is external and
      may raise: the environment says what the write of a record does. *)

From Stdlib Require Import ZArith List String Ascii Lia Bool DecimalString Permutation.
From stdpp Require Import base gmap strings list.
Import ListNotations.
Local Open Scope Z_scope.
Set Warnings "-register-all".

(** ** Python values and exceptions *)

(** The structured value produced by [json.loads]; [JNone] is Python's [None]
    (the value of the JSON text [null]). *)
Inductive Json : Type :=
| JNone
| JBool (b : bool)
| JInt (n : Z)
| JStr (s : string)
| JList (items : list Json)
| JDict (items : list (string * Json)).

(** [v is not None] *)
Definition is_not_None (v : Json) : bool :=
  match v with JNone => false | _ => true end.

(** Exception classes, as fine as the handlers of the source tell them apart.
    [BaseExceptionOnly] stands for the classes that derive from [BaseException]
    but not from [Exception] ([asyncio.CancelledError], [KeyboardInterrupt]);
    [AiohttpServerTimeoutError] derives from both [asyncio.TimeoutError] and
    [aiohttp.ClientError]. *)
Inductive ExcClass : Type :=
| BaseExceptionOnly
| AsyncioTimeoutError
| AiohttpServerTimeoutError
| AiohttpClientError
| JSONDecodeError
| KeyError
| FileNotFoundError
| ValueError
| UnicodeEncodeError
| OSError
| OtherException.

Record PyExc : Type := mkExc { exc_class : ExcClass; exc_str : string }.

Definition isinstance_TimeoutError (e : PyExc) : bool :=
  match exc_class e with
  | AsyncioTimeoutError | AiohttpServerTimeoutError => true
  | _ => false
  end.

Definition isinstance_ClientError (e : PyExc) : bool :=
  match exc_class e with
  | AiohttpServerTimeoutError | AiohttpClientError => true
  | _ => false
  end.

Definition isinstance_JSONDecodeError (e : PyExc) : bool :=
  match exc_class e with
  | JSONDecodeError => true
  | _ => false
  end.

Definition isinstance_Exception (e : PyExc) : bool :=
  match exc_class e with
  | BaseExceptionOnly => false
  | _ => true
  end.

(** [str(n)] for an [int]. *)
Definition str_of_int (n : Z) : string := NilZero.string_of_int (Z.to_int n).

(** [range(n)] *)
Definition range (n : Z) : list Z := map Z.of_nat (seq 0 (Z.to_nat n)).

(** ** The data model *)

(** [FetchResult] (a dataclass): [content] and [error] default to [None],
    [response_time] to [0.0]. *)
Record FetchResult : Type := mkFetchResult {
  url : string;
  success : bool;
  content : Json;
  error : option string;
  response_time : Z
}.

(** What a coroutine call ends with: a returned value or a raised exception. *)
Inductive Outcome (A : Type) : Type :=
| Returned (a : A)
| Raised (e : PyExc).
Arguments Returned {A} a.
Arguments Raised {A} e.

(** ** The environment of one task *)

(** [await response.text()] *)
Inductive TextOutcome : Type :=
| TextOk (text : string)
| TextRaises (e : PyExc).

(** One Transport exchange: [session.get(url)] either raises on entry or
    yields a response with a status, whose body is read only for status 200. *)
Inductive Exchange : Type :=
| GetRaises (e : PyExc)
| GetResponse (status : Z) (body : TextOutcome).

(** [json.loads(text)] *)
Inductive LoadsOutcome : Type :=
| Loaded (v : Json)
| LoadsRaises (e : PyExc).

(** The oracle of one task: the answer to its n-th call of [session.get]
    (n counted from 0) and the reading of [time.time() - start_time] after n
    calls. *)
Record Oracle : Type := mkOracle {
  exchange : nat -> Exchange;
  elapsed : nat -> Z
}.

(** What one task does, as seen from outside. *)
Inductive Event : Type :=
| EvAcquire                 (* the semaphore slot is taken *)
| EvGetBegin (u : string)   (* session.get(u) is entered *)
| EvGetEnd                  (* the exchange is over (response closed or error) *)
| EvRelease                 (* the semaphore slot is given back *)
| EvSleepBegin (d : Z)      (* asyncio.sleep(d) starts *)
| EvSleepEnd.               (* asyncio.sleep returns *)

(** The state threaded through one task: the number of calls of
    [session.get] made so far and the events so far, oldest first. *)
Record TaskState : Type := mkTaskState {
  calls : nat;
  events : list Event
}.

Definition init_task : TaskState := mkTaskState 0 [].

(** A small state monad for the task. *)
Definition Task (A : Type) : Type := TaskState -> A * TaskState.

Definition ret {A} (a : A) : Task A := fun s => (a, s).
Definition bind {A B} (m : Task A) (k : A -> Task B) : Task B :=
  fun s => let (a, s') := m s in k a s'.

Notation "x <- m ;; k" := (bind m (fun x => k))
  (at level 100, m at next level, right associativity).
Notation "m ;;; k" := (bind m (fun _ => k))
  (at level 100, right associativity).

Definition emit (e : Event) : Task unit :=
  fun s => (tt, mkTaskState (calls s) (events s ++ [e])).

(** [session.get(u)]: the oracle's answer to this call; the call is counted. *)
Definition session_get (o : Oracle) (u : string) : Task Exchange :=
  fun s => (exchange o (calls s),
            mkTaskState (S (calls s)) (events s ++ [EvGetBegin u])).

(** [time.time() - start_time] *)
Definition since_start (o : Oracle) : Task Z :=
  fun s => (elapsed o (calls s), s).

(** ** [URLFetcher] *)

(** The fields set by [__init__]; [semaphore] is the initial value of the
    [asyncio.Semaphore]. *)
Record URLFetcher : Type := mkURLFetcher {
  max_concurrent : Z;
  timeout : Z;
  max_retries : Z;
  semaphore : Z
}.

(** [URLFetcher.__init__]: [asyncio.Semaphore(value)] raises [ValueError] for
    a negative value. *)
Definition URLFetcher_init (max_concurrent timeout max_retries : Z)
  : Outcome URLFetcher :=
  if max_concurrent <? 0
  then Raised (mkExc ValueError "Semaphore initial value must be >= 0")
  else Returned (mkURLFetcher max_concurrent timeout max_retries max_concurrent).

(** How a statement inside the retry loop ends: with [return], with an
    exception in flight, or by falling through to the next statement. *)
Inductive Flow : Type :=
| FlowReturn (r : FetchResult)
| FlowRaise (e : PyExc)
| FlowNext.

(** The backoff unit: the literal [1] of [asyncio.sleep(1 * (attempt + 1))]. *)
Definition base_delay : Z := 1.

Section FetchSingleUrl.

Variable json_loads : string -> LoadsOutcome.
Variable self : URLFetcher.
Variable o : Oracle.
Variable u : string.

(** [return FetchResult(url=url, success=True, content=json_content,
    response_time=time.time() - start_time)] *)
Definition return_success (json_content : Json) : Task Flow :=
  t <- since_start o ;;
  ret (FlowReturn (mkFetchResult u true json_content None t)).

(** The statement that ends each failing path:
    [if attempt == self.max_retries: return FetchResult(url=url,
    success=False, error=error_msg, response_time=...)]. *)
Definition return_if_last (attempt : Z) (error_msg : string) : Task Flow :=
  if attempt =? max_retries self
  then t <- since_start o ;;
       ret (FlowReturn (mkFetchResult u false JNone (Some error_msg) t))
  else ret FlowNext.

(** The body of [async with session.get(url) as response:] (lines 73-102),
    given what the exchange does. *)
Definition with_response (attempt : Z) (ex : Exchange) : Task Flow :=
  match ex with
  | GetRaises e => ret (FlowRaise e)
  | GetResponse status body =>
      if status =? 200 then
        match body with
        | TextRaises e => ret (FlowRaise e)
        | TextOk text =>
            match json_loads text with
            | Loaded json_content => return_success json_content
            | LoadsRaises e =>
                if isinstance_JSONDecodeError e
                then return_if_last attempt ("Invalid JSON: " +:+ exc_str e)
                else ret (FlowRaise e)
            end
        end
      else return_if_last attempt ("HTTP " +:+ str_of_int status)
  end.

(** The [try] suite: [async with self.semaphore:] around the exchange. Both
    context managers are left before any handler or later statement runs. *)
Definition try_suite (attempt : Z) : Task Flow :=
  emit EvAcquire ;;;
  ex <- session_get o u ;;
  fl <- with_response attempt ex ;;
  emit EvGetEnd ;;;
  emit EvRelease ;;;
  ret fl.

(** The [except] clauses, tried in the order of the source. An exception
    that is no [Exception] is not caught. *)
Definition except_clauses (attempt : Z) (fl : Flow) : Task Flow :=
  match fl with
  | FlowRaise e =>
      if isinstance_TimeoutError e then
        return_if_last attempt "Timeout"
      else if isinstance_ClientError e then
        return_if_last attempt ("Client error: " +:+ exc_str e)
      else if isinstance_Exception e then
        return_if_last attempt ("Unexpected error: " +:+ exc_str e)
      else ret (FlowRaise e)
  | _ => ret fl
  end.

(** The delay of [await asyncio.sleep(1 * (attempt + 1))]. *)
Definition backoff_delay (attempt : Z) : Z := base_delay * (attempt + 1).

(** One iteration of [for attempt in range(self.max_retries + 1)]. *)
Definition loop_body (attempt : Z) : Task Flow :=
  fl <- try_suite attempt ;;
  fl <- except_clauses attempt fl ;;
  match fl with
  | FlowNext =>
      if attempt <? max_retries self
      then emit (EvSleepBegin (backoff_delay attempt)) ;;;
           emit EvSleepEnd ;;;
           ret FlowNext
      else ret FlowNext
  | _ => ret fl
  end.

(** The [for] loop; [None] when the loop runs out of attempts without a
    [return] or an exception. *)
Fixpoint for_attempts (attempts : list Z) : Task (option (Outcome FetchResult)) :=
  match attempts with
  | [] => ret None
  | attempt :: rest =>
      fl <- loop_body attempt ;;
      match fl with
      | FlowReturn r => ret (Some (Returned r))
      | FlowRaise e => ret (Some (Raised e))
      | FlowNext => for_attempts rest
      end
  end.

(** The statement after the loop (lines 138-144). *)
Definition max_retries_exceeded : Task (Outcome FetchResult) :=
  t <- since_start o ;;
  ret (Returned (mkFetchResult u false JNone (Some "Max retries exceeded") t)).

Definition _fetch_single_url : Task (Outcome FetchResult) :=
  r <- for_attempts (range (max_retries self + 1)) ;;
  match r with
  | Some out => ret out
  | None => max_retries_exceeded
  end.

End FetchSingleUrl.

(** One task run from its start: what it ends with, how many exchanges it
    made and its events. *)
Definition run_task (json_loads : string -> LoadsOutcome) (self : URLFetcher)
    (o : Oracle) (u : string) : Outcome FetchResult * TaskState :=
  _fetch_single_url json_loads self o u init_task.

(** ** The orchestrator: [URLFetcher.fetch_urls] *)

(** One line of the sink: the object [{"url": ..., "content": ...}]. *)
Record SinkRecord : Type := mkSinkRecord {
  rec_url : string;
  rec_content : Json
}.

(** What the loop over the completed tasks changes: the [stats] dictionary
    and the records written to the opened file, one for each write that
    returned. *)
Record RunState : Type := mkRunState {
  stats : gmap string Z;
  sink : list SinkRecord
}.

(** Everything outside the program that one run depends on. [order] is the
    order in which [asyncio.as_completed] hands over the tasks, as positions
    in the list of URLs. [sink_write n record] is what writing [record] does
    when the file already holds [n] records (lines 173-175: [json.dumps],
    [f.write], [f.flush]): it returns, or raises, as [f.write] does with
    [UnicodeEncodeError] for a content that holds a lone surrogate, or with
    [OSError] when the disk is full. *)
Record World : Type := mkWorld {
  json_loads : string -> LoadsOutcome;
  oracle : nat -> Oracle;
  order : list nat;
  clock_start : Z;
  clock_end : Z;
  sink_write : nat -> SinkRecord -> Outcome unit
}.

(** The body of the loop over [asyncio.as_completed(tasks)] for one awaited
    result (lines 172-182). A write that raises leaves the loop with its
    exception, no record added and nothing counted. [stats[k] += 1] raises
    [KeyError] on a missing key. *)
Definition handle_result (w : World) (result : FetchResult) (st : RunState)
  : Outcome unit * RunState :=
  if success result && is_not_None (content result) then
    match sink_write w (length (sink st))
            (mkSinkRecord (url result) (content result)) with
    | Raised e => (Raised e, st)
    | Returned _ =>
        let written :=
          sink st ++ [mkSinkRecord (url result) (content result)] in
        match stats st !! "successful"%string with
        | Some n =>
            (Returned tt,
             mkRunState (<["successful"%string := n + 1]> (stats st)) written)
        | None =>
            (Raised (mkExc KeyError "successful"), mkRunState (stats st) written)
        end
    end
  else
    match stats st !! "failed"%string with
    | Some n =>
        (Returned tt, mkRunState (<["failed"%string := n + 1]> (stats st)) (sink st))
    | None => (Raised (mkExc KeyError "failed"), st)
    end.

(** [for future in asyncio.as_completed(tasks): result = await future; ...]:
    awaiting a task that raised re-raises its exception and leaves the loop. *)
Fixpoint drain (w : World) (completed : list (Outcome FetchResult)) (st : RunState)
  : Outcome unit * RunState :=
  match completed with
  | [] => (Returned tt, st)
  | Raised e :: _ => (Raised e, st)
  | Returned result :: rest =>
      match handle_result w result st with
      | (Returned _, st') => drain w rest st'
      | (Raised e, st') => (Raised e, st')
      end
  end.

(** [tasks = [self._fetch_single_url(session, url) for url in urls]], each
    task with its own oracle. *)
Definition tasks (w : World) (self : URLFetcher) (urls : list string)
  : list (Outcome FetchResult * TaskState) :=
  imap (fun i u => run_task (json_loads w) self (oracle w i) u) urls.

(** The outcomes of the tasks in the order of completion. *)
Definition completed (w : World) (self : URLFetcher) (urls : list string)
  : list (Outcome FetchResult) :=
  omap (fun i => fst <$> tasks w self urls !! i) (order w).

(** The dictionary [stats] as created on line 159. *)
Definition initial_stats (urls : list string) : gmap string Z :=
  <["total"%string := Z.of_nat (length urls)]>
    (<["successful"%string := 0]>
       (<["failed"%string := 0]>
          (<["total_time"%string := 0]> ∅))).

(** [fetch_urls(urls, output_file)]: the returned statistics (or the
    exception that ends the run) and the content of the output file
    afterwards. Opening the file with mode ["w"] discards [sink_before]. *)
Definition fetch_urls (w : World) (self : URLFetcher) (urls : list string)
    (sink_before : list SinkRecord) : Outcome (gmap string Z) * list SinkRecord :=
  match drain w (completed w self urls) (mkRunState (initial_stats urls) []) with
  | (Returned _, st) =>
      (Returned (<["total_time"%string := clock_end w - clock_start w]> (stats st)),
       sink st)
  | (Raised e, st) => (Raised e, sink st)
  end.

(** ** Reading the URL list: [read_urls_from_file] *)

(** The white space [str.strip()] removes, among the code points below 256:
    U+0009 to U+000D, U+001C to U+0020, U+0085 and U+00A0. *)
Definition is_space (c : ascii) : bool :=
  let n := nat_of_ascii c in
  ((9 <=? n)%nat && (n <=? 13)%nat) || ((28 <=? n)%nat && (n <=? 32)%nat) ||
  (n =? 133)%nat || (n =? 160)%nat.

Fixpoint lstrip (s : string) : string :=
  match s with
  | EmptyString => EmptyString
  | String c s' => if is_space c then lstrip s' else s
  end.

Fixpoint rstrip (s : string) : string :=
  match s with
  | EmptyString => EmptyString
  | String c s' =>
      match rstrip s' with
      | EmptyString => if is_space c then EmptyString else String c EmptyString
      | r => String c r
      end
  end.

Definition strip (s : string) : string := rstrip (lstrip s).

(** [str.lower()] on a code point below 256: the letters U+0041 to U+005A
    and U+00C0 to U+00DE, the sign U+00D7 apart, move up by 32. *)
Definition lower_char (c : ascii) : ascii :=
  let n := nat_of_ascii c in
  if ((65 <=? n)%nat && (n <=? 90)%nat) ||
     ((192 <=? n)%nat && (n <=? 222)%nat && negb (n =? 215)%nat)
  then ascii_of_nat (n + 32) else c.

Fixpoint lower (s : string) : string :=
  match s with
  | EmptyString => EmptyString
  | String c s' => String (lower_char c) (lower s')
  end.

(** The truth value of a [str]. *)
Definition nonempty (s : string) : bool :=
  match s with EmptyString => false | _ => true end.

(** The loop over [lines[start_index:]] with its [break]. *)
Fixpoint collect_urls (limit : option Z) (lines urls : list string) : list string :=
  match lines with
  | [] => urls
  | line :: rest =>
      if match limit with
         | Some l => l <=? Z.of_nat (length urls)
         | None => false
         end
      then urls
      else
        let url := strip line in
        if nonempty url && negb (String.prefix "#" url)
        then collect_urls limit rest (urls ++ [url])
        else collect_urls limit rest urls
  end.

(** The input file as the reader meets it: the path it is given, and what
    the file system holds there, [None] when the path does not exist, else
    the lines of the file. *)
Record InputFile : Type := mkInputFile {
  file_path : string;
  file_lines : option (list string)
}.

(** [read_urls_from_file(file_path, limit)]. *)
Definition read_urls_from_file (file : InputFile) (limit : option Z)
  : Outcome (list string) :=
  match file_lines file with
  | None =>
      Raised (mkExc FileNotFoundError ("File " +:+ file_path file +:+ " not found"))
  | Some lines =>
      let start_index :=
        match lines with
        | first :: _ => if String.eqb (lower (strip first)) "url" then 1%nat else 0%nat
        | [] => 0%nat
        end in
      Returned (collect_urls limit (drop start_index lines) [])
  end.

(** [fetch_urls_from_file]: an exception of the [try] suite is logged and
    raised again. Without URLs the function returns the empty dictionary
    before a fetcher exists, so the output file is not opened. *)
Definition fetch_urls_from_file (w : World) (input_file : InputFile)
    (sink_before : list SinkRecord) (max_concurrent timeout max_retries : Z)
    (limit : option Z) : Outcome (gmap string Z) * list SinkRecord :=
  match read_urls_from_file input_file limit with
  | Raised e => (Raised e, sink_before)
  | Returned [] => (Returned ∅, sink_before)
  | Returned urls =>
      match URLFetcher_init max_concurrent timeout max_retries with
      | Raised e => (Raised e, sink_before)
      | Returned fetcher => fetch_urls w fetcher urls sink_before
      end
  end.

(** ** The tasks of a run under the semaphore *)

(** A task in flight: the events it has performed and those still ahead of
    it. *)
Record TaskRun : Type := mkTaskRun {
  past : list Event;
  future : list Event
}.

(** The run as the event loop sees it: the value of the semaphore and the
    tasks, one per URL. *)
Record System : Type := mkSystem {
  sem_value : Z;
  runs : list TaskRun
}.

(** [asyncio.Semaphore]: acquiring needs a positive value and decrements it,
    releasing increments it; a task that cannot acquire is suspended. *)
Definition can_fire (e : Event) (v : Z) : Prop :=
  match e with
  | EvAcquire => 0 < v
  | _ => True
  end.

Definition sem_after (e : Event) (v : Z) : Z :=
  match e with
  | EvAcquire => v - 1
  | EvRelease => v + 1
  | _ => v
  end.

(** The event loop picks any task whose next event can fire. *)
Inductive step : System -> System -> Prop :=
| step_task (sys : System) (i : nat) (t : TaskRun) (e : Event) (rest : list Event) :
    runs sys !! i = Some t ->
    future t = e :: rest ->
    can_fire e (sem_value sys) ->
    step sys (mkSystem (sem_after e (sem_value sys))
                       (<[i := mkTaskRun (past t ++ [e]) rest]> (runs sys))).

(** All tasks created, none started. *)
Definition initial_system (w : World) (self : URLFetcher) (urls : list string)
  : System :=
  mkSystem (semaphore self)
           ((fun t => mkTaskRun [] (events (snd t))) <$> tasks w self urls).

Definition reachable (w : World) (self : URLFetcher) (urls : list string)
  : System -> Prop :=
  rtc step (initial_system w self urls).

(** ** Observations on events *)

Definition is_acquire (e : Event) : bool :=
  match e with EvAcquire => true | _ => false end.
Definition is_release (e : Event) : bool :=
  match e with EvRelease => true | _ => false end.
Definition is_get_begin (e : Event) : bool :=
  match e with EvGetBegin _ => true | _ => false end.
Definition is_get_end (e : Event) : bool :=
  match e with EvGetEnd => true | _ => false end.
Definition is_sleep_begin (e : Event) : bool :=
  match e with EvSleepBegin _ => true | _ => false end.
Definition is_sleep_end (e : Event) : bool :=
  match e with EvSleepEnd => true | _ => false end.

Fixpoint count (p : Event -> bool) (l : list Event) : Z :=
  match l with
  | [] => 0
  | e :: l' => (if p e then 1 else 0) + count p l'
  end.

(** The delays of the sleeps of a task, in order. *)
Fixpoint sleeps (l : list Event) : list Z :=
  match l with
  | [] => []
  | EvSleepBegin d :: l' => d :: sleeps l'
  | _ :: l' => sleeps l'
  end.

(** Slots a task holds: acquired and not yet released. *)
Definition slots_held_by (t : TaskRun) : Z :=
  count is_acquire (past t) - count is_release (past t).

(** 1 while the task is inside a Transport exchange. *)
Definition exchanging (t : TaskRun) : Z :=
  count is_get_begin (past t) - count is_get_end (past t).

(** 1 while the task is inside a backoff sleep. *)
Definition sleeping (t : TaskRun) : Z :=
  count is_sleep_begin (past t) - count is_sleep_end (past t).

Fixpoint total (f : TaskRun -> Z) (l : list TaskRun) : Z :=
  match l with
  | [] => 0
  | t :: l' => f t + total f l'
  end.

Definition active_exchanges (sys : System) : Z := total exchanging (runs sys).

(** The position of a task within its cycle acquire, exchange, release,
    sleep. *)
Inductive Phase : Type :=
| Idle | Holding | Exchanging | Exchanged | Released | Sleeping.

Definition advance (p : Phase) (e : Event) : option Phase :=
  match p, e with
  | Idle, EvAcquire => Some Holding
  | Holding, EvGetBegin _ => Some Exchanging
  | Exchanging, EvGetEnd => Some Exchanged
  | Exchanged, EvRelease => Some Released
  | Released, EvSleepBegin _ => Some Sleeping
  | Sleeping, EvSleepEnd => Some Idle
  | _, _ => None
  end.

Fixpoint phase_after (p : Phase) (l : list Event) : option Phase :=
  match l with
  | [] => Some p
  | e :: l' =>
      match advance p e with
      | Some p' => phase_after p' l'
      | None => None
      end
  end.

Definition phase_holds (p : Phase) : Z :=
  match p with Holding | Exchanging | Exchanged => 1 | _ => 0 end.
Definition phase_exchanges (p : Phase) : Z :=
  match p with Exchanging => 1 | _ => 0 end.
Definition phase_sleeps (p : Phase) : Z :=
  match p with Sleeping => 1 | _ => 0 end.

(** The events of [n] consecutive attempts, the first with index [k], with a
    backoff sleep between two attempts and none after the last. *)
Fixpoint schedule (u : string) (n k : nat) : list Event :=
  match n with
  | O => []
  | S n' =>
      [EvAcquire; EvGetBegin u; EvGetEnd; EvRelease] ++
      match n' with
      | O => []
      | S _ =>
          [EvSleepBegin (base_delay * (Z.of_nat k + 1)); EvSleepEnd] ++
          schedule u n' (S k)
      end
  end.

(** A task between two attempts or at its end. *)
Definition at_rest (p : Phase) : Prop :=
  match p with Idle | Released => True | _ => False end.

(** A task in flight follows the cycle: its past leads to some phase, from
    which its future leads to rest. *)
Definition task_ok (t : TaskRun) : Prop :=
  exists p q,
    phase_after Idle (past t) = Some p /\
    phase_after p (future t) = Some q /\
    at_rest q.

(** The invariant of a run under a semaphore of capacity [cap]. *)
Definition sys_inv (cap : Z) (sys : System) : Prop :=
  0 <= sem_value sys /\
  sem_value sys + total slots_held_by (runs sys) = cap /\
  Forall task_ok (runs sys).

(** ** Observations on exchanges *)

(** The exchange ends in [Success]: status 200 and a body that parses. *)
Definition attempt_succeeds (loads : string -> LoadsOutcome) (ex : Exchange) : bool :=
  match ex with
  | GetRaises _ => false
  | GetResponse status body =>
      if status =? 200 then
        match body with
        | TextOk text =>
            match loads text with Loaded _ => true | LoadsRaises _ => false end
        | TextRaises _ => false
        end
      else false
  end.

(** The exception an exchange lets fly, from the transport or from the
    parser, if any. *)
Definition raised_in (loads : string -> LoadsOutcome) (ex : Exchange) : option PyExc :=
  match ex with
  | GetRaises e => Some e
  | GetResponse status body =>
      if status =? 200 then
        match body with
        | TextOk text =>
            match loads text with Loaded _ => None | LoadsRaises e => Some e end
        | TextRaises e => Some e
        end
      else None
  end.

(** Every error of the transport and of the parser is an [Exception]. *)
Definition only_Exceptions (loads : string -> LoadsOutcome) (o : Oracle) : Prop :=
  forall n e, raised_in loads (exchange o n) = Some e -> isinstance_Exception e = true.

Definition world_only_Exceptions (w : World) : Prop :=
  forall i, only_Exceptions (json_loads w) (oracle w i).

(** [order w] names every task once. *)
Definition completes_all (w : World) (urls : list string) : Prop :=
  Permutation (order w) (seq 0 (length urls)).

(** The results a run hands to the loop body, in order of completion. *)
Definition results_of (outs : list (Outcome FetchResult)) : list FetchResult :=
  omap (fun out => match out with Returned r => Some r | Raised _ => None end) outs.

Definition record_of (r : FetchResult) : SinkRecord :=
  mkSinkRecord (url r) (content r).

(** The results the loop body writes: success with a content that is not
    [None]. *)
Definition written (r : FetchResult) : bool :=
  success r && is_not_None (content r).

(** The exception that reaches the [except] clauses of the retry loop: one
    from the transport, or one from the parser that is no [JSONDecodeError]
    (that one is handled next to [json.loads]). *)
Definition reaches_handlers (loads : string -> LoadsOutcome) (ex : Exchange)
  : option PyExc :=
  match ex with
  | GetRaises e => Some e
  | GetResponse status body =>
      if status =? 200 then
        match body with
        | TextOk text =>
            match loads text with
            | Loaded _ => None
            | LoadsRaises e => if isinstance_JSONDecodeError e then None else Some e
            end
        | TextRaises e => Some e
        end
      else None
  end.

(** The reason a failed exchange is reported with, by kind of failure. *)
Inductive terminal_reason (loads : string -> LoadsOutcome) : Exchange -> string -> Prop :=
| reason_http (status : Z) (body : TextOutcome) :
    status <> 200 ->
    terminal_reason loads (GetResponse status body) ("HTTP " +:+ str_of_int status)
| reason_invalid_json (text : string) (e : PyExc) :
    loads text = LoadsRaises e ->
    isinstance_JSONDecodeError e = true ->
    terminal_reason loads (GetResponse 200 (TextOk text)) ("Invalid JSON: " +:+ exc_str e)
| reason_timeout (ex : Exchange) (e : PyExc) :
    reaches_handlers loads ex = Some e ->
    isinstance_TimeoutError e = true ->
    terminal_reason loads ex "Timeout"
| reason_client (ex : Exchange) (e : PyExc) :
    reaches_handlers loads ex = Some e ->
    isinstance_TimeoutError e = false ->
    isinstance_ClientError e = true ->
    terminal_reason loads ex ("Client error: " +:+ exc_str e)
| reason_unexpected (ex : Exchange) (e : PyExc) :
    reaches_handlers loads ex = Some e ->
    isinstance_TimeoutError e = false ->
    isinstance_ClientError e = false ->
    isinstance_Exception e = true ->
    terminal_reason loads ex ("Unexpected error: " +:+ exc_str e).

(** How the flow out of one iteration relates to the exchange it made. *)
Definition flow_explained (loads : string -> LoadsOutcome) (self : URLFetcher)
    (u : string) (attempt : Z) (ex : Exchange) (fl : Flow) : Prop :=
  match fl with
  | FlowReturn r =>
      url r = u /\
      if success r
      then error r = None /\
           exists text, ex = GetResponse 200 (TextOk text) /\
                        loads text = Loaded (content r)
      else attempt = max_retries self /\ content r = JNone /\
           attempt_succeeds loads ex = false /\
           exists msg, error r = Some msg /\ terminal_reason loads ex msg
  | FlowRaise e =>
      reaches_handlers loads ex = Some e /\ isinstance_Exception e = false
  | FlowNext =>
      attempt <> max_retries self /\ attempt_succeeds loads ex = false
  end.

(** The forms of [error] as the specification words them, with
    ["Invalid content: "] for a body that does not parse. *)
Definition worded_error_form (msg : string) : Prop :=
  (exists code : Z, msg = "HTTP " +:+ str_of_int code) \/
  msg = "Timeout"%string \/
  (exists detail, msg = "Client error: " +:+ detail) \/
  (exists detail, msg = "Invalid content: " +:+ detail) \/
  (exists detail, msg = "Unexpected error: " +:+ detail).

(** The forms of [error] the source produces. *)
Definition error_form (msg : string) : Prop :=
  (exists code : Z, code <> 200 /\ msg = "HTTP " +:+ str_of_int code) \/
  msg = "Timeout"%string \/
  (exists detail, msg = "Client error: " +:+ detail) \/
  (exists detail, msg = "Invalid JSON: " +:+ detail) \/
  (exists detail, msg = "Unexpected error: " +:+ detail).

(** The statistics read: [total], [successful] and [failed] of a run state. *)
Definition tally (total successful failed : Z) (st : RunState) : Prop :=
  stats st !! "total"%string = Some total /\
  stats st !! "successful"%string = Some successful /\
  stats st !! "failed"%string = Some failed.

(** The number of results the loop body counts as successful. *)
Definition count_written (rs : list FetchResult) : Z :=
  Z.of_nat (length (List.filter written rs)).

(** The number of results the loop body counts as failed. *)
Definition count_unwritten (rs : list FetchResult) : Z :=
  Z.of_nat (length (List.filter (fun r => negb (written r)) rs)).

(** ** Sample environments *)

(** [json.loads] on the few texts the samples use: [null], [1] and [{}] are
    JSON texts, [oops] is none. No other text occurs in a sample. *)
Definition sample_loads (text : string) : LoadsOutcome :=
  if String.eqb text "null" then Loaded JNone
  else if String.eqb text "1" then Loaded (JInt 1)
  else if String.eqb text "{}" then Loaded (JDict [])
  else LoadsRaises (mkExc JSONDecodeError "Expecting value: line 1 column 1 (char 0)").

Definition sample_clock (n : nat) : Z := Z.of_nat n.

(** A server that always answers 200 with the object [{}]. *)
Definition serves_object : Oracle :=
  mkOracle (fun _ => GetResponse 200 (TextOk "{}")) sample_clock.

(** A server that always answers 200 with the text [null]. *)
Definition serves_null : Oracle :=
  mkOracle (fun _ => GetResponse 200 (TextOk "null")) sample_clock.

(** A server that always answers 200 with a body that is no JSON. *)
Definition serves_garbage : Oracle :=
  mkOracle (fun _ => GetResponse 200 (TextOk "oops")) sample_clock.

(** A server that always answers 500. *)
Definition serves_500 : Oracle :=
  mkOracle (fun _ => GetResponse 500 (TextOk "Internal Server Error")) sample_clock.

(** A server that never answers in time. *)
Definition times_out : Oracle :=
  mkOracle (fun _ => GetRaises (mkExc AsyncioTimeoutError "")) sample_clock.

(** Two bodies that are no JSON, then the object [{}]. *)
Definition recovers_on_third : Oracle :=
  mkOracle (fun n => match n with
                     | 0%nat | 1%nat => GetResponse 200 (TextOk "oops")
                     | _ => GetResponse 200 (TextOk "{}")
                     end) sample_clock.

(** The fetcher with the default arguments of [__init__]. *)
Definition default_fetcher : URLFetcher := mkURLFetcher 5 30 2 5.

(** A fetcher that never retries. *)
Definition single_shot_fetcher : URLFetcher := mkURLFetcher 5 30 0 5.

(** Five URLs: three servers answer with an object, one with status 500
    forever, one never in time; the tasks complete in the order 2, 0, 4, 1,
    3. *)
Definition mixed_world : World :=
  mkWorld sample_loads
          (fun i => match i with
                    | 0%nat | 1%nat | 2%nat => serves_object
                    | 3%nat => serves_500
                    | _ => times_out
                    end)
          [2; 0; 4; 1; 3]%nat 100 107 (fun _ _ => Returned tt).

Definition mixed_urls : list string :=
  ["http://a"; "http://b"; "http://c"; "http://d"; "http://e"]%string.

(** One URL whose server answers 200 with the text [null]. *)
Definition null_world : World :=
  mkWorld sample_loads (fun _ => serves_null) [0%nat] 100 101
          (fun _ _ => Returned tt).

(** What is in flight when the [with] blocks of an iteration are left. *)
Definition leaves_with (loads : string -> LoadsOutcome) (self : URLFetcher)
    (u : string) (attempt : Z) (ex : Exchange) (fl : Flow) : Prop :=
  match fl with
  | FlowRaise e => reaches_handlers loads ex = Some e
  | _ => flow_explained loads self u attempt ex fl
  end.

(** The events one iteration adds. *)
Definition iteration_events (self : URLFetcher) (u : string) (attempt : Z)
    (fl : Flow) : list Event :=
  [EvAcquire; EvGetBegin u; EvGetEnd; EvRelease] ++
  match fl with
  | FlowNext =>
      if attempt <? max_retries self
      then [EvSleepBegin (backoff_delay attempt); EvSleepEnd]
      else []
  | _ => []
  end.

(** A task outcome seen as the flow that ended the loop. *)
Definition flow_of_outcome (out : Outcome FetchResult) : Flow :=
  match out with
  | Returned r => FlowReturn r
  | Raised e => FlowRaise e
  end.

(** What the loop over the attempts [a, a+1, ..., a+n-1] has done when it
    ends with [res] in state [s'], started in state [s]: it made [m]
    exchanges, all but the last without success, and the last one explains
    the result. *)
Definition loop_post (loads : string -> LoadsOutcome) (self : URLFetcher)
    (o : Oracle) (u : string) (a n : nat) (s : TaskState)
    (res : option (Outcome FetchResult)) (s' : TaskState) : Prop :=
  exists m : nat,
    (m <= n)%nat /\
    calls s' = (calls s + m)%nat /\
    events s' = events s ++ schedule u m a /\
    (forall j, (S j < m)%nat ->
               attempt_succeeds loads (exchange o (calls s + j)) = false) /\
    match res with
    | None => n = 0%nat
    | Some out =>
        (1 <= m)%nat /\
        flow_explained loads self u (Z.of_nat (a + m - 1))
          (exchange o (calls s + m - 1)) (flow_of_outcome out)
    end.

(** ** Further observations *)

(** The test a stripped line passes to become a URL: not empty, no comment. *)
Definition keeps (url : string) : bool :=
  nonempty url && negb (String.prefix "#" url).

(** The lines after the header line, if the file starts with one. *)
Definition data_lines (lines : list string) : list string :=
  match lines with
  | first :: rest =>
      if String.eqb (lower (strip first)) "url" then rest else lines
  | [] => []
  end.

(** An exchange after which the task goes on to the next attempt, budget
    permitting: no success, and no exception the handlers let through. *)
Definition retried (loads : string -> LoadsOutcome) (ex : Exchange) : Prop :=
  attempt_succeeds loads ex = false /\
  forall e, reaches_handlers loads ex = Some e -> isinstance_Exception e = true.

(** Every task of the run has performed all its events. *)
Definition finished (sys : System) : Prop :=
  Forall (fun t => future t = []) (runs sys).

(** The number of events the tasks have still to perform. *)
Definition remaining (sys : System) : Z :=
  total (fun t => Z.of_nat (length (future t))) (runs sys).

(** A server whose exchange is cancelled from outside. *)
Definition cancelled : Oracle :=
  mkOracle (fun _ => GetRaises (mkExc BaseExceptionOnly "")) sample_clock.

(** Three URLs; the task of the second is cancelled, and completes second. *)
Definition cancelled_world : World :=
  mkWorld sample_loads
          (fun i => match i with
                    | 1%nat => cancelled
                    | _ => serves_object
                    end)
          [2; 1; 0]%nat 100 101 (fun _ _ => Returned tt).

Definition three_urls : list string :=
  ["http://a"; "http://b"; "http://c"]%string.

(** The world [mixed_world] with the tasks completing in input order. *)
Definition mixed_world_in_order : World :=
  mkWorld sample_loads (oracle mixed_world) [0; 1; 2; 3; 4]%nat 200 230
          (fun _ _ => Returned tt).

(** A file with a header, a comment, a blank line and three URLs. *)
Definition sample_file : list string :=
  [" URL "; "# mirrors"; ""; "  http://a  "; "http://b"; "http://c "]%string.

(** A server that answers 500 once; the second exchange is cancelled. *)
Definition fails_then_cancelled : Oracle :=
  mkOracle (fun n => match n with
                     | 0%nat => GetResponse 500 (TextOk "")
                     | _ => GetRaises (mkExc BaseExceptionOnly "")
                     end) sample_clock.

(** A fetcher whose retry budget is negative. *)
Definition no_budget_fetcher : URLFetcher := mkURLFetcher 5 30 (-1) 5.

(** Three URLs: one served, one answered with 500 forever, one with a body
    that is no JSON; the tasks complete in the order 1, 2, 0. *)
Definition three_world : World :=
  mkWorld sample_loads
          (fun i => match i with
                    | 0%nat => serves_object
                    | 1%nat => serves_500
                    | _ => serves_garbage
                    end)
          [1; 2; 0]%nat 0 9 (fun _ _ => Returned tt).

(** A fetcher created with [max_concurrent = 0]. *)
Definition zero_capacity_fetcher : URLFetcher := mkURLFetcher 0 30 2 0.

(** The file accepts the records of the results [rs]: writing any of them
    raises nothing, wherever in the file it comes. *)
Definition writes_accepted (w : World) (rs : list FetchResult) : Prop :=
  forall n r, r ∈ rs -> written r = true ->
              sink_write w n (record_of r) = Returned tt.

(** The file [sample_file] at the default path of [fetch_urls_from_file]. *)
Definition sample_input : InputFile :=
  mkInputFile "src/6/1.csv" (Some sample_file).

(** The world [mixed_world] on a disk with room for one record only. *)
Definition full_disk_world : World :=
  mkWorld sample_loads (oracle mixed_world) [2; 0; 4; 1; 3]%nat 100 107
          (fun n _ => if (n <? 1)%nat then Returned tt
                      else Raised (mkExc OSError "[Errno 28] No space left on device")).

(** ** The retry loop, one iteration *)

Lemma reaches_handlers_fails loads ex e :
  reaches_handlers loads ex = Some e -> attempt_succeeds loads ex = false.
Proof.
  destruct ex as [e' | status body]; simpl; [reflexivity |].
  destruct (status =? 200); [| reflexivity].
  destruct body as [text | e']; [| reflexivity].
  destruct (loads text); [discriminate | reflexivity].
Qed.

Lemma reaches_handlers_raised loads ex e :
  reaches_handlers loads ex = Some e -> raised_in loads ex = Some e.
Proof.
  destruct ex as [e' | status body]; simpl; [tauto |].
  destruct (status =? 200); [| discriminate].
  destruct body as [text | e']; [| tauto].
  destruct (loads text) as [v | e']; [discriminate |].
  destruct (isinstance_JSONDecodeError e'); [discriminate | tauto].
Qed.

Section LoopBody.

Variable loads : string -> LoadsOutcome.
Variable self : URLFetcher.
Variable o : Oracle.
Variable u : string.

Lemma return_if_last_state attempt msg s :
  snd (return_if_last self o u attempt msg s) = s.
Proof.
  unfold return_if_last. destruct (attempt =? max_retries self); reflexivity.
Qed.

Lemma with_response_state attempt ex s :
  snd (with_response loads self o u attempt ex s) = s.
Proof.
  unfold with_response.
  destruct ex as [e | status body]; [reflexivity |].
  destruct (status =? 200); [| apply return_if_last_state].
  destruct body as [text | e]; [| reflexivity].
  destruct (loads text) as [v | e]; [reflexivity |].
  destruct (isinstance_JSONDecodeError e);
    [apply return_if_last_state | reflexivity].
Qed.

Lemma except_clauses_state attempt fl s :
  snd (except_clauses self o u attempt fl s) = s.
Proof.
  unfold except_clauses.
  destruct fl as [r | e |]; try reflexivity.
  destruct (isinstance_TimeoutError e); [apply return_if_last_state |].
  destruct (isinstance_ClientError e); [apply return_if_last_state |].
  destruct (isinstance_Exception e); [apply return_if_last_state | reflexivity].
Qed.

Lemma return_if_last_explained attempt ex msg s :
  attempt_succeeds loads ex = false ->
  terminal_reason loads ex msg ->
  flow_explained loads self u attempt ex
    (fst (return_if_last self o u attempt msg s)).
Proof.
  intros Hfail Hmsg. unfold return_if_last.
  destruct (attempt =? max_retries self) eqn:Hlast; simpl.
  - apply Z.eqb_eq in Hlast. repeat split; eauto.
  - apply Z.eqb_neq in Hlast. split; assumption.
Qed.

Lemma with_response_explained attempt ex s :
  leaves_with loads self u attempt ex (fst (with_response loads self o u attempt ex s)).
Proof.
  destruct ex as [e | status body]; simpl; [reflexivity |].
  destruct (status =? 200) eqn:Hst.
  - apply Z.eqb_eq in Hst. subst status.
    destruct body as [text | e]; simpl; [| reflexivity].
    destruct (loads text) as [v | e] eqn:Hloads; simpl.
    + split; [reflexivity |]. split; [reflexivity |]. eauto.
    + destruct (isinstance_JSONDecodeError e) eqn:Hjson; simpl.
      * assert (Hx : flow_explained loads self u attempt
                       (GetResponse 200 (TextOk text))
                       (fst (return_if_last self o u attempt
                               ("Invalid JSON: " +:+ exc_str e) s))).
        { apply return_if_last_explained.
          - simpl. rewrite Hloads. reflexivity.
          - apply reason_invalid_json; assumption. }
        unfold leaves_with.
        destruct (fst (return_if_last self o u attempt
                         ("Invalid JSON: " +:+ exc_str e) s)) eqn:Hfl;
          try assumption.
        unfold return_if_last in Hfl.
        destruct (attempt =? max_retries self); discriminate.
      * rewrite Hloads, Hjson. reflexivity.
  - assert (Hx : flow_explained loads self u attempt (GetResponse status body)
                   (fst (return_if_last self o u attempt
                           ("HTTP " +:+ str_of_int status) s))).
    { apply return_if_last_explained.
      - simpl. rewrite Hst. reflexivity.
      - apply reason_http. apply Z.eqb_neq. assumption. }
    unfold leaves_with.
    destruct (fst (return_if_last self o u attempt
                     ("HTTP " +:+ str_of_int status) s)) eqn:Hfl;
      try assumption.
    unfold return_if_last in Hfl.
    destruct (attempt =? max_retries self); discriminate.
Qed.

Lemma except_clauses_explained attempt ex fl s :
  leaves_with loads self u attempt ex fl ->
  flow_explained loads self u attempt ex
    (fst (except_clauses self o u attempt fl s)).
Proof.
  destruct fl as [r | e |]; simpl; try (intros H; exact H).
  intros Hreach.
  pose proof (reaches_handlers_fails _ _ _ Hreach) as Hfail.
  destruct (isinstance_TimeoutError e) eqn:Htime.
  { apply return_if_last_explained; [assumption |].
    eapply reason_timeout; eassumption. }
  destruct (isinstance_ClientError e) eqn:Hclient.
  { apply return_if_last_explained; [assumption |].
    eapply reason_client; eassumption. }
  destruct (isinstance_Exception e) eqn:Hexc.
  { apply return_if_last_explained; [assumption |].
    eapply reason_unexpected; eassumption. }
  simpl. split; assumption.
Qed.

Lemma loop_body_run attempt s :
  calls (snd (loop_body loads self o u attempt s)) = S (calls s) /\
  events (snd (loop_body loads self o u attempt s)) =
    events s ++ iteration_events self u attempt (fst (loop_body loads self o u attempt s)) /\
  flow_explained loads self u attempt (exchange o (calls s))
    (fst (loop_body loads self o u attempt s)).
Proof.
  unfold loop_body, try_suite, bind, emit, session_get, ret. simpl.
  set (s2 := mkTaskState (S (calls s)) ((events s ++ [EvAcquire]) ++ [EvGetBegin u])).
  pose proof (with_response_state attempt (exchange o (calls s)) s2) as Hs1.
  pose proof (with_response_explained attempt (exchange o (calls s)) s2) as Hf1.
  destruct (with_response loads self o u attempt (exchange o (calls s)) s2)
    as [fl1 s1]. simpl in Hs1, Hf1. subst s1. simpl.
  set (s3 := mkTaskState (S (calls s))
               ((((events s ++ [EvAcquire]) ++ [EvGetBegin u]) ++ [EvGetEnd]) ++ [EvRelease])).
  pose proof (except_clauses_state attempt fl1 s3) as Hs4.
  pose proof (except_clauses_explained attempt (exchange o (calls s)) fl1 s3 Hf1) as Hf2.
  destruct (except_clauses self o u attempt fl1 s3) as [fl2 s4].
  simpl in Hs4, Hf2. subst s4.
  unfold iteration_events.
  destruct fl2 as [r | e |]; simpl.
  - repeat split; try assumption; try apply Hf2. rewrite <- !app_assoc. reflexivity.
  - repeat split; try assumption; try apply Hf2. rewrite <- !app_assoc. reflexivity.
  - destruct (attempt <? max_retries self); simpl;
      (repeat split; try assumption; try apply Hf2; rewrite <- !app_assoc; reflexivity).
Qed.

End LoopBody.

(** ** The retry loop as a whole *)

Section RetryLoop.

Variable loads : string -> LoadsOutcome.
Variable self : URLFetcher.
Variable o : Oracle.
Variable u : string.

Lemma schedule_step m a :
  (1 <= m)%nat ->
  schedule u (S m) a =
    [EvAcquire; EvGetBegin u; EvGetEnd; EvRelease] ++
    [EvSleepBegin (backoff_delay (Z.of_nat a)); EvSleepEnd] ++
    schedule u m (S a).
Proof.
  intros Hm. destruct m as [| m']; [lia |]. reflexivity.
Qed.

Lemma for_attempts_post n : forall a s,
  Z.of_nat a + Z.of_nat n = max_retries self + 1 ->
  loop_post loads self o u a n s
    (fst (for_attempts loads self o u (map Z.of_nat (seq a n)) s))
    (snd (for_attempts loads self o u (map Z.of_nat (seq a n)) s)).
Proof.
  induction n as [| n IH]; intros a s Hlen.
  - exists 0%nat. simpl. rewrite app_nil_r.
    repeat split; intros; lia.
  - simpl. unfold bind.
    destruct (loop_body_run loads self o u (Z.of_nat a) s) as (Hcalls & Hev & Hflow).
    destruct (loop_body loads self o u (Z.of_nat a) s) as [fl s1].
    simpl in Hcalls, Hev, Hflow.
    destruct fl as [r | e |]; simpl.
    + exists 1%nat. unfold iteration_events in Hev.
      replace (a + 1 - 1)%nat with a by lia.
      replace (calls s + 1 - 1)%nat with (calls s) by lia.
      repeat split; try assumption; try apply Hflow; intros; lia.
    + exists 1%nat. unfold iteration_events in Hev.
      replace (a + 1 - 1)%nat with a by lia.
      replace (calls s + 1 - 1)%nat with (calls s) by lia.
      repeat split; try assumption; try apply Hflow; intros; lia.
    + destruct Hflow as [Hnotlast Hfail].
      assert (Hlt : (Z.of_nat a <? max_retries self) = true)
        by (apply Z.ltb_lt; lia).
      unfold iteration_events in Hev. rewrite Hlt in Hev.
      specialize (IH (S a) s1 ltac:(lia)).
      destruct (for_attempts loads self o u (map Z.of_nat (seq (S a) n)) s1)
        as [res s2].
      simpl in *.
      destruct IH as (m & Hm & Hc2 & Hev2 & Hearly & Hres).
      destruct res as [out |]; [| lia].
      destruct Hres as [Hm1 Hlast].
      exists (S m).
      split; [lia |].
      split; [lia |].
      split.
      { rewrite Hev2, Hev, schedule_step by assumption.
        rewrite <- !app_assoc. reflexivity. }
      split.
      { intros j Hj. destruct j as [| j'].
        - replace (calls s + 0)%nat with (calls s) by lia. assumption.
        - replace (calls s + S j')%nat with (calls s1 + j')%nat by lia.
          apply Hearly. lia. }
      split; [lia |].
      replace (a + S m - 1)%nat with (S a + m - 1)%nat by lia.
      replace (calls s + S m - 1)%nat with (calls s1 + m - 1)%nat by lia.
      assumption.
Qed.

End RetryLoop.

(** ** One task from start to end *)

Section RunTask.

Variable loads : string -> LoadsOutcome.
Variable self : URLFetcher.
Variable o : Oracle.
Variable u : string.

Lemma range_seq n : range n = map Z.of_nat (seq 0 (Z.to_nat n)).
Proof. reflexivity. Qed.

(** With a retry budget the loop ends the task. *)
Lemma run_task_post :
  0 <= max_retries self ->
  loop_post loads self o u 0 (Z.to_nat (max_retries self + 1)) init_task
    (Some (fst (run_task loads self o u))) (snd (run_task loads self o u)).
Proof.
  intros Hretries.
  unfold run_task, _fetch_single_url, bind. rewrite range_seq.
  pose proof (for_attempts_post loads self o u
                (Z.to_nat (max_retries self + 1)) 0 init_task ltac:(lia)) as Hpost.
  destruct (for_attempts loads self o u
              (map Z.of_nat (seq 0 (Z.to_nat (max_retries self + 1)))) init_task)
    as [res st].
  simpl in Hpost.
  destruct res as [out |]; [exact Hpost |].
  destruct Hpost as (m & _ & _ & _ & _ & Hn). lia.
Qed.

(** Without one ([max_retries < 0]) the loop has no iteration. *)
Lemma run_task_no_budget :
  max_retries self < 0 ->
  run_task loads self o u =
    (Returned (mkFetchResult u false JNone (Some "Max retries exceeded")
                 (elapsed o 0)), init_task).
Proof.
  intros Hneg. unfold run_task, _fetch_single_url, bind. rewrite range_seq.
  replace (Z.to_nat (max_retries self + 1)) with 0%nat by lia. reflexivity.
Qed.

Lemma count_get_begin_schedule m a :
  count is_get_begin (schedule u m a) = Z.of_nat m.
Proof.
  revert a. induction m as [| m IH]; intros a; [reflexivity |].
  destruct m as [| m']; [reflexivity |].
  rewrite schedule_step by lia.
  change (count is_get_begin
            ([EvAcquire; EvGetBegin u; EvGetEnd; EvRelease] ++
             [EvSleepBegin (backoff_delay (Z.of_nat a)); EvSleepEnd] ++
             schedule u (S m') (S a)))
    with (1 + count is_get_begin (schedule u (S m') (S a))).
  rewrite IH. lia.
Qed.

Lemma sleeps_schedule m a :
  sleeps (schedule u m a) =
    (fun k => base_delay * (Z.of_nat k + 1)) <$> seq a (m - 1).
Proof.
  revert a. induction m as [| m IH]; intros a; [reflexivity |].
  destruct m as [| m']; [reflexivity |].
  rewrite schedule_step by lia.
  change (sleeps ([EvAcquire; EvGetBegin u; EvGetEnd; EvRelease] ++
                  [EvSleepBegin (backoff_delay (Z.of_nat a)); EvSleepEnd] ++
                  schedule u (S m') (S a)))
    with (backoff_delay (Z.of_nat a) :: sleeps (schedule u (S m') (S a))).
  rewrite IH. replace (S (S m') - 1)%nat with (S (S m' - 1)) by lia.
  reflexivity.
Qed.

(** The events of a task are those of the exchanges it made, and it makes
    no more exchanges than its budget allows. *)
Lemma run_task_schedule :
  events (snd (run_task loads self o u)) =
    schedule u (calls (snd (run_task loads self o u))) 0 /\
  Z.of_nat (calls (snd (run_task loads self o u))) <= Z.max 0 (max_retries self + 1).
Proof.
  destruct (Z.lt_ge_cases (max_retries self) 0) as [Hneg | Hpos].
  - rewrite run_task_no_budget by assumption. simpl. split; [reflexivity | lia].
  - destruct (run_task_post Hpos) as (m & Hm & Hcalls & Hev & _).
    simpl in Hcalls, Hev. rewrite Hcalls, Hev. split; [reflexivity | lia].
Qed.

End RunTask.

(** ** The retry budget and the backoff *)

(** C1. With [max_retries >= 0], one call of [_fetch_single_url] makes at most
    [max_retries + 1] Transport exchanges: the call counter of the transport
    and the number of [session.get] events of the task agree and do not
    exceed [max_retries + 1]. *)
Theorem fetch_exchanges_bounded loads self o u :
  0 <= max_retries self ->
  Z.of_nat (calls (snd (run_task loads self o u))) <= max_retries self + 1 /\
  count is_get_begin (events (snd (run_task loads self o u))) =
    Z.of_nat (calls (snd (run_task loads self o u))).
Proof.
  intros Hretries.
  destruct (run_task_schedule loads self o u) as [Hev Hbound].
  split; [lia |].
  rewrite Hev. apply count_get_begin_schedule.
Qed.

Lemma fetch_exchanges_bounded_witness :
  0 <= max_retries default_fetcher /\
  Z.of_nat (calls (snd (run_task sample_loads default_fetcher serves_500 "u"))) <= 3.
Proof.
  split; [simpl; lia |].
  apply (fetch_exchanges_bounded sample_loads default_fetcher serves_500 "u").
  simpl; lia.
Defined.

(** C2. The events of a task are exchanges separated by backoff sleeps: the
    sleep after attempt [k] exists exactly when attempt [k + 1] takes place,
    its delay is [base_delay * (k + 1)], it only follows an attempt
    [k < max_retries], and the delays increase strictly. *)
Theorem backoff_linear_increasing loads self o u :
  events (snd (run_task loads self o u)) =
    schedule u (calls (snd (run_task loads self o u))) 0 /\
  (forall k : nat,
      (S k < calls (snd (run_task loads self o u)))%nat <->
      sleeps (events (snd (run_task loads self o u))) !! k =
        Some (base_delay * (Z.of_nat k + 1))) /\
  (forall (k : nat) (d : Z),
      sleeps (events (snd (run_task loads self o u))) !! k = Some d ->
      Z.of_nat k < max_retries self /\ d = backoff_delay (Z.of_nat k)) /\
  (forall (j k : nat) (dj dk : Z),
      (j < k)%nat ->
      sleeps (events (snd (run_task loads self o u))) !! j = Some dj ->
      sleeps (events (snd (run_task loads self o u))) !! k = Some dk ->
      dj < dk).
Proof.
  destruct (run_task_schedule loads self o u) as [Hev Hbound].
  set (st := snd (run_task loads self o u)) in *.
  assert (Hsleeps : forall (k : nat) (d : Z),
             sleeps (events st) !! k = Some d <->
             d = base_delay * (Z.of_nat k + 1) /\ (S k < calls st)%nat).
  { intros k d. rewrite Hev, sleeps_schedule, list_lookup_fmap.
    split.
    - intros Hk. destruct (seq 0 (calls st - 1) !! k) as [k' |] eqn:Hseq;
        [| discriminate].
      apply lookup_seq in Hseq. destruct Hseq as [-> Hlt].
      simpl in Hk. inversion Hk. split; [reflexivity | lia].
    - intros [-> Hlt]. rewrite lookup_seq_lt by lia. reflexivity. }
  split; [exact Hev |].
  split.
  { intros k. rewrite Hsleeps. split; [intros H; split; [reflexivity | exact H] | tauto]. }
  split.
  { intros k d Hk. apply Hsleeps in Hk. destruct Hk as [-> Hlt].
    split; [lia | reflexivity]. }
  intros j k dj dk Hjk Hj Hk.
  apply Hsleeps in Hj. apply Hsleeps in Hk.
  destruct Hj as [-> _]. destruct Hk as [-> _].
  unfold base_delay. lia.
Qed.

(** ** The terminal result of a task *)

Lemma terminal_reason_form loads ex msg :
  terminal_reason loads ex msg -> error_form msg.
Proof.
  intros H. unfold error_form. destruct H; eauto 10.
Qed.

Lemma error_form_not_fallback msg :
  error_form msg -> msg <> "Max retries exceeded"%string.
Proof.
  intros H Heq. subst msg.
  destruct H as [(code & _ & H) | [H | [(d & H) | [(d & H) | (d & H)]]]];
    simpl in H; discriminate.
Qed.

(** What the result of a task that had a retry budget looks like. *)
Lemma run_task_returned loads self o u r :
  0 <= max_retries self ->
  fst (run_task loads self o u) = Returned r ->
  exists m : nat,
    calls (snd (run_task loads self o u)) = m /\ (1 <= m)%nat /\
    Z.of_nat m <= max_retries self + 1 /\
    (forall j, (S j < m)%nat -> attempt_succeeds loads (exchange o j) = false) /\
    flow_explained loads self u (Z.of_nat (m - 1)) (exchange o (m - 1)) (FlowReturn r).
Proof.
  intros Hretries Hr.
  destruct (run_task_post loads self o u Hretries)
    as (m & Hm & Hcalls & _ & Hearly & Hm1 & Hflow).
  rewrite Hr in Hflow. simpl in Hcalls, Hflow, Hearly.
  exists m. repeat split; try assumption; try lia; apply Hflow.
Qed.

(** C9. With [max_retries >= 0] the statement after the retry loop is never
    reached: from any state the loop over [range(max_retries + 1)] ends with a
    [return] or an exception of its own, and no result of a task carries the
    error ["Max retries exceeded"]. *)
Theorem fallback_unreachable loads self o u :
  0 <= max_retries self ->
  (forall s, exists out,
      fst (for_attempts loads self o u (range (max_retries self + 1)) s) = Some out) /\
  (forall r, fst (run_task loads self o u) = Returned r ->
             error r <> Some "Max retries exceeded"%string).
Proof.
  intros Hretries. split.
  - intros s. rewrite range_seq.
    pose proof (for_attempts_post loads self o u
                  (Z.to_nat (max_retries self + 1)) 0 s ltac:(lia)) as Hpost.
    destruct (fst (for_attempts loads self o u
                     (map Z.of_nat (seq 0 (Z.to_nat (max_retries self + 1)))) s))
      as [out |]; [eauto |].
    destruct Hpost as (m & _ & _ & _ & _ & Hn). lia.
  - intros r Hr.
    destruct (run_task_returned loads self o u r Hretries Hr)
      as (m & _ & _ & _ & _ & _ & Hflow).
    destruct (success r).
    + destruct Hflow as [-> _]. discriminate.
    + destruct Hflow as (_ & _ & _ & msg & -> & Hmsg).
      intros Heq. inversion Heq as [Hmsg'].
      apply (error_form_not_fallback msg); [| assumption].
      eapply terminal_reason_form; eassumption.
Qed.

Lemma fallback_unreachable_witness :
  0 <= max_retries default_fetcher /\
  forall r, fst (run_task sample_loads default_fetcher times_out "u") = Returned r ->
            error r <> Some "Max retries exceeded"%string.
Proof.
  split; [simpl; lia |].
  apply (fallback_unreachable sample_loads default_fetcher times_out "u").
  simpl; lia.
Defined.

(** Without the condition on [max_retries] the statement after the loop is
    what ends the task. *)
Example fallback_reached_without_budget :
  fst (run_task sample_loads (mkURLFetcher 5 30 (-1) 5) serves_object "u") =
    Returned (mkFetchResult "u" false JNone (Some "Max retries exceeded") 0).
Proof. reflexivity. Qed.

(** The fields of a returned result, by its [success]. *)
Lemma run_task_result_fields loads self o u r :
  fst (run_task loads self o u) = Returned r ->
  (success r = true ->
     error r = None /\
     exists text,
       exchange o (calls (snd (run_task loads self o u)) - 1) =
         GetResponse 200 (TextOk text) /\
       loads text = Loaded (content r)) /\
  (success r = false ->
     content r = JNone /\ exists msg, error r = Some msg).
Proof.
  intros Hr.
  destruct (Z.lt_ge_cases (max_retries self) 0) as [Hneg | Hpos].
  - rewrite run_task_no_budget in Hr by assumption. simpl in Hr.
    inversion Hr; subst r; simpl. split; [discriminate | eauto].
  - destruct (run_task_returned loads self o u r Hpos Hr)
      as (m & Hcalls & _ & _ & _ & _ & Hflow).
    rewrite Hcalls.
    destruct (success r).
    + destruct Hflow as (Herr & text & Hex & Hload).
      split; [eauto | discriminate].
    + destruct Hflow as (_ & Hcontent & _ & msg & Herr & _).
      split; [discriminate | eauto].
Qed.

(** C5, as amended. A successful result carries no error and its content is
    the value [json.loads] returned for the body of the last exchange of the
    task, which answered 200 (the content is [None] for the body [null]); a
    failed result carries no content and an error. *)
Theorem result_fields_consistent loads self o u r :
  fst (run_task loads self o u) = Returned r ->
  (success r = true ->
     error r = None /\
     exists text,
       exchange o (calls (snd (run_task loads self o u)) - 1) =
         GetResponse 200 (TextOk text) /\
       loads text = Loaded (content r)) /\
  (success r = false ->
     content r = JNone /\ exists msg, error r = Some msg).
Proof.
  apply run_task_result_fields.
Qed.

Lemma result_fields_consistent_witness :
  exists r,
    fst (run_task sample_loads default_fetcher recovers_on_third "u") = Returned r /\
    ((success r = true ->
        error r = None /\
        exists text,
          exchange recovers_on_third
            (calls (snd (run_task sample_loads default_fetcher recovers_on_third "u")) - 1) =
            GetResponse 200 (TextOk text) /\
          sample_loads text = Loaded (content r)) /\
     (success r = false ->
        content r = JNone /\ exists msg, error r = Some msg)).
Proof.
  eexists. split; [reflexivity |].
  apply (result_fields_consistent sample_loads default_fetcher recovers_on_third "u").
  reflexivity.
Defined.

(** C5 as worded fails: the body [null] gives a result with [success] true
    whose content is [None]. *)
Lemma success_with_content_None :
  ~ (forall r,
       fst (run_task sample_loads default_fetcher serves_null "u") = Returned r ->
       (success r = true -> is_not_None (content r) = true /\ error r = None) /\
       (success r = false -> is_not_None (content r) = false /\ error r <> None)).
Proof.
  intros H.
  destruct (H (mkFetchResult "u" true JNone None 1) eq_refl) as [Hsucc _].
  destruct (Hsucc eq_refl) as [Hcontent _]. discriminate.
Qed.

(** C7, as amended. A failed result of a task with [max_retries >= 0] comes
    from the last permitted attempt, the exchange number [max_retries], and
    its error is the reason of that exchange: ["HTTP <code>"], ["Timeout"],
    ["Client error: <detail>"], ["Invalid JSON: <detail>"] or
    ["Unexpected error: <detail>"]. *)
Theorem terminal_error_reason loads self o u r :
  0 <= max_retries self ->
  fst (run_task loads self o u) = Returned r ->
  success r = false ->
  exists msg,
    error r = Some msg /\ error_form msg /\
    calls (snd (run_task loads self o u)) = S (Z.to_nat (max_retries self)) /\
    terminal_reason loads (exchange o (Z.to_nat (max_retries self))) msg.
Proof.
  intros Hretries Hr Hfail.
  destruct (run_task_returned loads self o u r Hretries Hr)
    as (m & Hcalls & Hm1 & _ & _ & _ & Hflow).
  rewrite Hfail in Hflow.
  destruct Hflow as (Hlast & _ & _ & msg & Herr & Hmsg).
  assert (Hm : (m - 1)%nat = Z.to_nat (max_retries self)) by lia.
  rewrite Hm in Hmsg.
  exists msg. repeat split; try assumption.
  - eapply terminal_reason_form; eassumption.
  - lia.
Qed.

Lemma terminal_error_reason_witness :
  exists r,
    (0 <= max_retries default_fetcher /\
     fst (run_task sample_loads default_fetcher serves_500 "u") = Returned r /\
     success r = false) /\
    exists msg,
      error r = Some msg /\ error_form msg /\
      calls (snd (run_task sample_loads default_fetcher serves_500 "u")) =
        S (Z.to_nat (max_retries default_fetcher)) /\
      terminal_reason sample_loads
        (exchange serves_500 (Z.to_nat (max_retries default_fetcher))) msg.
Proof.
  eexists. split.
  - split; [simpl; lia | split; reflexivity].
  - apply (terminal_error_reason sample_loads default_fetcher serves_500 "u");
      [simpl; lia | reflexivity | reflexivity].
Defined.

(** C7 as worded fails: a body that is no JSON is reported as
    ["Invalid JSON: ..."], which is none of the five worded forms. *)
Lemma invalid_json_reason_not_worded :
  ~ (forall r msg,
       fst (run_task sample_loads single_shot_fetcher serves_garbage "u") = Returned r ->
       success r = false ->
       error r = Some msg ->
       worded_error_form msg).
Proof.
  intros H.
  specialize (H (mkFetchResult "u" false JNone
                   (Some "Invalid JSON: Expecting value: line 1 column 1 (char 0)") 1)
                "Invalid JSON: Expecting value: line 1 column 1 (char 0)"%string
                eq_refl eq_refl eq_refl).
  destruct H as [(code & H) | [H | [(d & H) | [(d & H) | (d & H)]]]];
    simpl in H; discriminate.
Qed.

(** ** The loop over the completed tasks *)

Lemma initial_stats_tally urls sink0 :
  tally (Z.of_nat (length urls)) 0 0 (mkRunState (initial_stats urls) sink0).
Proof.
  unfold tally, initial_stats. simpl. repeat split; by simplify_map_eq.
Qed.

Lemma tally_eq t a b a' b' st :
  tally t a b st -> a = a' -> b = b' -> tally t a' b' st.
Proof. intros H -> ->. exact H. Qed.

Lemma handle_result_tally w r st t a b :
  tally t a b st ->
  (written r = true ->
   sink_write w (length (sink st)) (record_of r) = Returned tt) ->
  exists st',
    handle_result w r st = (Returned tt, st') /\
    tally t (a + (if written r then 1 else 0)) (b + (if written r then 0 else 1)) st' /\
    sink st' = sink st ++ (if written r then [record_of r] else []).
Proof.
  intros (Ht & Ha & Hb) Hwrite. unfold handle_result. fold (written r).
  fold (record_of r).
  destruct (written r).
  - rewrite (Hwrite eq_refl), Ha. eexists. split; [reflexivity |]. simpl.
    split; [| reflexivity].
    unfold tally. simpl. rewrite Z.add_0_r.
    repeat split; by simplify_map_eq.
  - rewrite Hb. eexists. split; [reflexivity |]. simpl.
    split; [| by rewrite app_nil_r].
    unfold tally. simpl. rewrite Z.add_0_r.
    repeat split; by simplify_map_eq.
Qed.

(** A write that raises is the only way the handling of a result fails. *)
Lemma handle_result_cases w r st t a b :
  tally t a b st ->
  (exists st',
      handle_result w r st = (Returned tt, st') /\
      tally t (a + (if written r then 1 else 0)) (b + (if written r then 0 else 1)) st' /\
      sink st' = sink st ++ (if written r then [record_of r] else [])) \/
  (exists e,
      written r = true /\
      sink_write w (length (sink st)) (record_of r) = Raised e /\
      handle_result w r st = (Raised e, st)).
Proof.
  intros Htally.
  destruct (written r) eqn:Hw.
  - destruct (sink_write w (length (sink st)) (record_of r)) as [[] | e] eqn:Hwrite.
    + left. pose proof (handle_result_tally w r st t a b Htally (fun _ => Hwrite)) as H.
      rewrite Hw in H. exact H.
    + right. exists e. split; [reflexivity |]. split; [reflexivity |].
      unfold handle_result. fold (written r). fold (record_of r).
      rewrite Hw, Hwrite. reflexivity.
  - left. assert (Hno : written r = true ->
                        sink_write w (length (sink st)) (record_of r) = Returned tt)
      by (rewrite Hw; discriminate).
    pose proof (handle_result_tally w r st t a b Htally Hno) as H.
    rewrite Hw in H. exact H.
Qed.


Lemma writes_accepted_cons w r rs :
  writes_accepted w (r :: rs) ->
  (forall n, written r = true -> sink_write w n (record_of r) = Returned tt) /\
  writes_accepted w rs.
Proof.
  intros H. split.
  - intros n Hw. apply H; [apply list_elem_of_here | exact Hw].
  - intros n r' Hin Hw. apply H; [apply list_elem_of_further; exact Hin | exact Hw].
Qed.

Lemma drain_returned w rs : forall st t a b,
  tally t a b st ->
  writes_accepted w rs ->
  exists st',
    drain w (Returned <$> rs) st = (Returned tt, st') /\
    tally t (a + count_written rs) (b + count_unwritten rs) st' /\
    sink st' = sink st ++ (record_of <$> List.filter written rs).
Proof.
  unfold count_written, count_unwritten.
  induction rs as [| r rs IH]; intros st t a b Htally Hacc.
  - exists st. simpl. rewrite !Z.add_0_r, app_nil_r. auto.
  - apply writes_accepted_cons in Hacc. destruct Hacc as [Hr Hacc].
    destruct (handle_result_tally w r st t a b Htally (Hr _)) as (st1 & Hh & Ht1 & Hs1).
    destruct (IH st1 _ _ _ Ht1 Hacc) as (st2 & Hd & Ht2 & Hs2).
    exists st2. simpl. rewrite Hh. split; [exact Hd |].
    rewrite Hs2, Hs1. destruct (written r); simpl.
    + split; [| by rewrite <- app_assoc].
      eapply tally_eq; [exact Ht2 | lia | lia].
    + split; [| by rewrite app_nil_r].
      eapply tally_eq; [exact Ht2 | lia | lia].
Qed.

Lemma count_written_unwritten rs :
  count_written rs + count_unwritten rs = Z.of_nat (length rs).
Proof.
  unfold count_written, count_unwritten.
  induction rs as [| r rs IH]; [reflexivity |].
  simpl. destruct (written r); simpl; lia.
Qed.

Lemma results_of_returned (outs : list (Outcome FetchResult)) :
  Forall (fun out => exists r, out = Returned r) outs ->
  outs = Returned <$> results_of outs.
Proof.
  unfold results_of.
  induction 1 as [| out outs [r ->] _ IH]; [reflexivity |].
  simpl. f_equal. exact IH.
Qed.

Lemma omap_lookup_seq {A B : Type} (f : A -> B) (l : list A) : forall pre : list A,
  omap (fun i => f <$> (pre ++ l) !! i) (seq (length pre) (length l)) = f <$> l.
Proof.
  induction l as [| x l IH]; intros pre; [reflexivity |].
  simpl. rewrite list_lookup_middle by reflexivity. simpl. f_equal.
  specialize (IH (pre ++ [x])).
  rewrite length_app, <- app_assoc in IH. simpl in IH.
  replace (length pre + 1)%nat with (S (length pre)) in IH by lia.
  exact IH.
Qed.

(** When every task completes once, the completed outcomes are those of the
    tasks, in some order. *)
Lemma completed_permutation w self urls :
  completes_all w urls ->
  Permutation (completed w self urls) (fst <$> tasks w self urls).
Proof.
  intros Hall. unfold completed.
  rewrite Hall.
  replace (length urls) with (length (tasks w self urls))
    by (unfold tasks; apply length_imap).
  pose proof (omap_lookup_seq fst (tasks w self urls) []) as Hseq.
  simpl in Hseq. rewrite Hseq. reflexivity.
Qed.

Lemma completed_length w self urls :
  completes_all w urls -> length (completed w self urls) = length urls.
Proof.
  intros Hall. rewrite (Permutation_length (completed_permutation w self urls Hall)).
  rewrite length_fmap. unfold tasks. apply length_imap.
Qed.

(** Each completed outcome is the outcome of the task of some URL. *)
Lemma completed_from_task w self urls out :
  out ∈ completed w self urls ->
  exists i u, urls !! i = Some u /\
              out = fst (run_task (json_loads w) self (oracle w i) u).
Proof.
  unfold completed. intros Hin.
  apply list_elem_of_omap in Hin. destruct Hin as (i & _ & Hi).
  unfold tasks in Hi. rewrite list_lookup_imap in Hi.
  destruct (urls !! i) as [u |] eqn:Hu; [| discriminate].
  simpl in Hi. inversion Hi. eauto.
Qed.

(** ** A whole run *)

Lemma run_task_returns loads self o u :
  only_Exceptions loads o ->
  exists r, fst (run_task loads self o u) = Returned r.
Proof.
  intros Honly.
  destruct (Z.lt_ge_cases (max_retries self) 0) as [Hneg | Hpos].
  - rewrite run_task_no_budget by assumption. simpl. eauto.
  - destruct (run_task_post loads self o u Hpos) as (m & _ & _ & _ & _ & _ & Hflow).
    destruct (fst (run_task loads self o u)) as [r | e]; [eauto |].
    simpl in Hflow. destruct Hflow as [Hreach Hexc].
    pose proof (Honly _ _ (reaches_handlers_raised _ _ _ Hreach)) as Hx.
    congruence.
Qed.

Lemma completed_all_returned w self urls :
  world_only_Exceptions w ->
  Forall (fun out => exists r, out = Returned r) (completed w self urls).
Proof.
  intros Honly. apply Forall_forall. intros out Hin.
  apply completed_from_task in Hin. destruct Hin as (i & u & _ & ->).
  apply run_task_returns, Honly.
Qed.

Lemma world_only_Exceptions_mixed : world_only_Exceptions mixed_world.
Proof.
  intros i n e H.
  destruct i as [| [| [| [| i]]]]; simpl in H;
    first [discriminate | inversion H; reflexivity].
Qed.

Lemma completes_all_mixed : completes_all mixed_world mixed_urls.
Proof.
  unfold completes_all. apply (bool_decide_unpack _). vm_compute. exact I.
Qed.

Lemma always_accepted w rs :
  (forall n record, sink_write w n record = Returned tt) ->
  writes_accepted w rs.
Proof. intros H n r _ _. apply H. Qed.

(** What the loop has counted and written when it stops, however it stops. *)
Lemma drain_counts w outs : forall st t a b,
  tally t a b st ->
  exists out st' a' b',
    drain w outs st = (out, st') /\
    tally t a' b' st' /\
    a <= a' /\ b <= b' /\
    a' + b' <= a + b + Z.of_nat (length outs) /\
    (out = Returned tt -> a' + b' = a + b + Z.of_nat (length outs)) /\
    a' - a = Z.of_nat (length (sink st')) - Z.of_nat (length (sink st)).
Proof.
  induction outs as [| out outs IH]; intros st t a b Htally.
  - exists (Returned tt), st, a, b. simpl.
    split; [reflexivity |]. split; [exact Htally |]. repeat split; lia.
  - destruct out as [r | e].
    + destruct (handle_result_cases w r st t a b Htally)
        as [(st1 & Hh & Ht1 & Hs1) | (e & _ & _ & Hh)].
      * destruct (IH st1 _ _ _ Ht1)
          as (out & st2 & a2 & b2 & Hd & Ht2 & Ha & Hb & Hle & Heq & Hlen).
        exists out, st2, a2, b2. simpl. rewrite Hh.
        rewrite Hs1, length_app in Hlen.
        split; [exact Hd |]. split; [exact Ht2 |].
        destruct (written r); simpl in *;
          (repeat split; try lia; intros Hout; specialize (Heq Hout); lia).
      * exists (Raised e), st, a, b. simpl. rewrite Hh.
        split; [reflexivity |]. split; [exact Htally |].
        repeat split; first [lia | discriminate].
    + exists (Raised e), st, a, b. simpl.
      split; [reflexivity |]. split; [exact Htally |].
      repeat split; first [lia | discriminate].
Qed.



(** A run whose tasks all return, and whose records the file accepts, gives
    statistics and a sink determined by the results in the order of their
    completion. *)
Lemma fetch_urls_returns w self urls sink_before :
  world_only_Exceptions w ->
  completes_all w urls ->
  writes_accepted w (results_of (completed w self urls)) ->
  exists st,
    fetch_urls w self urls sink_before =
      (Returned st,
       record_of <$> List.filter written (results_of (completed w self urls))) /\
    st !! "total"%string = Some (Z.of_nat (length urls)) /\
    st !! "successful"%string = Some (count_written (results_of (completed w self urls))) /\
    st !! "failed"%string = Some (count_unwritten (results_of (completed w self urls))) /\
    length (results_of (completed w self urls)) = length urls.
Proof.
  intros Honly Hall Hacc.
  pose proof (results_of_returned _ (completed_all_returned w self urls Honly)) as Hrs.
  pose proof (completed_length w self urls Hall) as Hlen.
  set (rs := results_of (completed w self urls)) in *.
  destruct (drain_returned w rs (mkRunState (initial_stats urls) [])
              _ _ _ (initial_stats_tally urls []) Hacc)
    as (st' & Hdrain & (Ht & Ha & Hb) & Hsink).
  unfold fetch_urls. rewrite Hrs, Hdrain. simpl in Hsink.
  eexists. split; [rewrite Hsink; reflexivity |].
  rewrite Hrs, length_fmap in Hlen.
  rewrite Z.add_0_l in Ha, Hb.
  repeat split; try assumption; by simplify_map_eq.
Qed.

Lemma writes_accepted_mixed rs : writes_accepted mixed_world rs.
Proof. apply always_accepted. reflexivity. Qed.

(** C3. Whenever a run returns statistics, [total] is the number of input
    URLs and [successful + failed] is equal to it; the run does return when
    every error of the transport and the parser is an [Exception] and the
    file accepts the records. At every point of the loop, after any number
    [k] of completed tasks and whether or not the loop has been left by an
    exception, [total] is that number and [successful + failed] is at most
    [k] and at most [total]; it is [k] while the loop goes on. *)
Theorem statistics_add_up w self urls sink_before :
  completes_all w urls ->
  (forall st sink_after,
      fetch_urls w self urls sink_before = (Returned st, sink_after) ->
      st !! "total"%string = Some (Z.of_nat (length urls)) /\
      exists successful failed,
        st !! "successful"%string = Some successful /\
        st !! "failed"%string = Some failed /\
        successful + failed = Z.of_nat (length urls)) /\
  (world_only_Exceptions w ->
   writes_accepted w (results_of (completed w self urls)) ->
   exists st sink_after,
     fetch_urls w self urls sink_before = (Returned st, sink_after)) /\
  (forall k : nat,
      exists out st successful failed,
        drain w (take k (completed w self urls)) (mkRunState (initial_stats urls) []) =
          (out, st) /\
        tally (Z.of_nat (length urls)) successful failed st /\
        successful + failed <= Z.of_nat k /\
        successful + failed <= Z.of_nat (length urls) /\
        (out = Returned tt -> (k <= length urls)%nat ->
         successful + failed = Z.of_nat k)).
Proof.
  intros Hall.
  pose proof (completed_length w self urls Hall) as Hlen.
  split; [| split].
  - intros st sink_after Hrun. unfold fetch_urls in Hrun.
    destruct (drain_counts w (completed w self urls)
                (mkRunState (initial_stats urls) []) _ _ _
                (initial_stats_tally urls []))
      as (out & st' & a & b & Hdrain & (Ht & Ha & Hb) & _ & _ & _ & Heq & _).
    rewrite Hdrain in Hrun. destruct out as [[] | e]; [| discriminate].
    inversion Hrun; subst.
    split; [by simplify_map_eq |].
    exists a, b. split; [by simplify_map_eq |]. split; [by simplify_map_eq |].
    specialize (Heq eq_refl). lia.
  - intros Honly Hacc.
    destruct (fetch_urls_returns w self urls sink_before Honly Hall Hacc)
      as (st & Hrun & _). eauto.
  - intros k.
    destruct (drain_counts w (take k (completed w self urls))
                (mkRunState (initial_stats urls) []) _ _ _
                (initial_stats_tally urls []))
      as (out & st' & a & b & Hdrain & Htally & _ & _ & Hle & Heq & _).
    rewrite length_take in Hle, Heq.
    exists out, st', a, b. split; [exact Hdrain |]. split; [exact Htally |].
    split; [lia |]. split; [lia |].
    intros Hout Hk. specialize (Heq Hout). lia.
Qed.

Lemma statistics_add_up_witness :
  completes_all mixed_world mixed_urls /\
  exists st sink_after,
    fetch_urls mixed_world default_fetcher mixed_urls [] = (Returned st, sink_after) /\
    st !! "total"%string = Some (Z.of_nat (length mixed_urls)) /\
    exists successful failed,
      st !! "successful"%string = Some successful /\
      st !! "failed"%string = Some failed /\
      successful + failed = Z.of_nat (length mixed_urls).
Proof.
  split; [exact completes_all_mixed |].
  destruct (statistics_add_up mixed_world default_fetcher mixed_urls []
              completes_all_mixed) as (Hreturned & Hreturns & _).
  destruct (Hreturns world_only_Exceptions_mixed (writes_accepted_mixed _))
    as (st & sink_after & Hrun).
  exists st, sink_after. split; [exact Hrun |].
  exact (Hreturned st sink_after Hrun).
Defined.

(** A result that is not written has no content. *)
Lemma unwritten_has_no_content loads self o u r :
  fst (run_task loads self o u) = Returned r ->
  written r = false ->
  content r = JNone.
Proof.
  intros Hr Hw. apply run_task_result_fields in Hr. destruct Hr as [_ Hfail].
  unfold written in Hw. destruct (success r).
  - simpl in Hw. destruct (content r); [reflexivity | discriminate ..].
  - destruct (Hfail eq_refl) as [Hnone _]. exact Hnone.
Qed.

(** C4, as amended. When every error of the transport and the parser is an
    [Exception] and the file accepts the records, the sink of a run holds, in
    the order of completion, one record [{url, content}] for each result with
    [success] true and a content that is not [None]; the content is the value
    [json.loads] returned for the body of the last exchange of the task of
    that URL. The sink holds no record for any other result: none for a
    failed result, and none for a result with [success] true and content
    [None], which is counted in [failed]. The results are those of the tasks,
    each once. *)
Theorem sink_holds_written_results w self urls sink_before :
  world_only_Exceptions w ->
  completes_all w urls ->
  writes_accepted w (results_of (completed w self urls)) ->
  exists st,
    fetch_urls w self urls sink_before =
      (Returned st,
       record_of <$> List.filter written (results_of (completed w self urls))) /\
    Permutation (Returned <$> results_of (completed w self urls))
                (fst <$> tasks w self urls) /\
    (forall r, r ∈ results_of (completed w self urls) ->
               written r = true ->
               exists i u text,
                 urls !! i = Some u /\
                 fst (run_task (json_loads w) self (oracle w i) u) = Returned r /\
                 exchange (oracle w i)
                   (calls (snd (run_task (json_loads w) self (oracle w i) u)) - 1) =
                   GetResponse 200 (TextOk text) /\
                 json_loads w text = Loaded (content r)) /\
    (forall r, r ∈ results_of (completed w self urls) ->
               written r = false ->
               record_of r ∉
                 record_of <$> List.filter written (results_of (completed w self urls))) /\
    (forall r, success r = false \/ content r = JNone -> written r = false) /\
    st !! "successful"%string =
      Some (count_written (results_of (completed w self urls))) /\
    st !! "failed"%string =
      Some (count_unwritten (results_of (completed w self urls))).
Proof.
  intros Honly Hall Hacc.
  destruct (fetch_urls_returns w self urls sink_before Honly Hall Hacc)
    as (st & Hrun & _ & Ha & Hb & _).
  pose proof (results_of_returned _ (completed_all_returned w self urls Honly)) as Hrs.
  assert (Htask : forall r, r ∈ results_of (completed w self urls) ->
            exists i u, urls !! i = Some u /\
                        fst (run_task (json_loads w) self (oracle w i) u) = Returned r).
  { intros r Hr.
    assert (Hin : Returned r ∈ completed w self urls).
    { rewrite Hrs. apply list_elem_of_fmap. eauto. }
    apply completed_from_task in Hin. destruct Hin as (i & u & Hu & Heq). eauto. }
  exists st. split; [exact Hrun |].
  split; [rewrite <- Hrs; apply completed_permutation; assumption |].
  split; [| split; [| split; [| split; assumption]]].
  - intros r Hr Hw. destruct (Htask r Hr) as (i & u & Hu & Hrun_r).
    pose proof (run_task_result_fields _ _ _ _ _ Hrun_r) as [Hsucc _].
    unfold written in Hw. apply andb_prop in Hw. destruct Hw as [Hs _].
    destruct (Hsucc Hs) as (_ & text & Hex & Hload).
    exists i, u, text. auto.
  - intros r Hr Hw Hin. destruct (Htask r Hr) as (i & u & _ & Hrun_r).
    pose proof (unwritten_has_no_content _ _ _ _ _ Hrun_r Hw) as Hnone.
    apply list_elem_of_fmap in Hin. destruct Hin as (r' & Hrec & Hin').
    apply list_elem_of_In, filter_In in Hin'. destruct Hin' as [_ Hw'].
    unfold written in Hw'. apply andb_prop in Hw'. destruct Hw' as [_ Hc].
    unfold record_of in Hrec. inversion Hrec as [[Hurl Hcontent]].
    rewrite <- Hcontent, Hnone in Hc. discriminate.
  - intros r [Hfail | Hnone]; unfold written.
    + rewrite Hfail. reflexivity.
    + rewrite Hnone. apply andb_false_r.
Qed.

Lemma sink_holds_written_results_witness :
  (world_only_Exceptions mixed_world /\ completes_all mixed_world mixed_urls /\
   writes_accepted mixed_world
     (results_of (completed mixed_world default_fetcher mixed_urls))) /\
  exists st,
    fetch_urls mixed_world default_fetcher mixed_urls [] =
      (Returned st,
       [mkSinkRecord "http://c" (JDict []); mkSinkRecord "http://a" (JDict []);
        mkSinkRecord "http://b" (JDict [])]).
Proof.
  split.
  - split; [exact world_only_Exceptions_mixed |].
    split; [exact completes_all_mixed | apply writes_accepted_mixed].
  - destruct (sink_holds_written_results mixed_world default_fetcher mixed_urls []
                world_only_Exceptions_mixed completes_all_mixed
                (writes_accepted_mixed _)) as (st & Hrun & _).
    exists st. exact Hrun.
Defined.

(** C4 as worded fails: the result for the body [null] has [success] true,
    and the sink holds no record for it. *)
Lemma null_content_not_in_sink :
  ~ (forall st sink_after,
       fetch_urls null_world default_fetcher ["http://n"%string] [] =
         (Returned st, sink_after) ->
       Permutation sink_after
         (record_of <$>
            List.filter success
              (results_of (completed null_world default_fetcher ["http://n"%string])))).
Proof.
  intros H.
  destruct (fetch_urls null_world default_fetcher ["http://n"%string] [])
    as [out sink_after] eqn:Hrun.
  assert (Hsink : sink_after = []).
  { change sink_after with
      (snd (out, sink_after)). rewrite <- Hrun. vm_compute. reflexivity. }
  assert (Hout : exists st, out = Returned st).
  { change out with (fst (out, sink_after)). rewrite <- Hrun.
    unfold fetch_urls. simpl. eauto. }
  destruct Hout as [st ->]. subst sink_after.
  specialize (H st [] eq_refl).
  apply Permutation_nil_l in H. vm_compute in H. discriminate.
Qed.

(** C6. When every error of the transport and the parser is an [Exception]
    (a timeout, a client error, a status other than 200, a body that does not
    parse, or any other exception), every task returns a [FetchResult] and
    raises nothing; a task none of whose permitted attempts succeeds returns
    a failed result after [max_retries + 1] exchanges. Handling a failed
    result raises nothing: it is counted in [failed] and the loop goes on.
    So the run as a whole returns its statistics, counting the failures,
    provided the file accepts the records of the successes. *)
Theorem errors_absorbed w self urls sink_before :
  world_only_Exceptions w ->
  completes_all w urls ->
  (forall i u, exists r,
      fst (run_task (json_loads w) self (oracle w i) u) = Returned r /\
      (0 <= max_retries self ->
       (forall k : nat, Z.of_nat k <= max_retries self ->
            attempt_succeeds (json_loads w) (exchange (oracle w i) k) = false) ->
       success r = false /\ error r <> None /\
       Z.of_nat (calls (snd (run_task (json_loads w) self (oracle w i) u))) =
         max_retries self + 1)) /\
  (forall r st total successful failed,
      success r = false ->
      tally total successful failed st ->
      exists st',
        handle_result w r st = (Returned tt, st') /\
        tally total successful (failed + 1) st' /\
        sink st' = sink st) /\
  (writes_accepted w (results_of (completed w self urls)) ->
   exists st sink_after,
     fetch_urls w self urls sink_before = (Returned st, sink_after) /\
     st !! "failed"%string =
       Some (count_unwritten (results_of (completed w self urls)))).
Proof.
  intros Honly Hall. split; [| split].
  - intros i u.
    destruct (run_task_returns (json_loads w) self (oracle w i) u (Honly i)) as [r Hr].
    exists r. split; [exact Hr |].
    intros Hretries Hnone.
    destruct (run_task_returned _ _ _ _ _ Hretries Hr)
      as (m & Hcalls & Hm1 & Hm & _ & _ & Hflow).
    destruct (success r) eqn:Hsucc.
    + destruct Hflow as (_ & text & Hex & Hload).
      specialize (Hnone (m - 1)%nat ltac:(lia)).
      rewrite Hex in Hnone. simpl in Hnone. rewrite Hload in Hnone. discriminate.
    + destruct Hflow as (Hlast & _ & _ & msg & Herr & _).
      split; [reflexivity |]. split; [congruence | lia].
  - intros r st t a b Hfail Htally.
    assert (Hw : written r = false) by (unfold written; rewrite Hfail; reflexivity).
    destruct (handle_result_tally w r st t a b Htally) as (st' & Hh & Ht' & Hs').
    { rewrite Hw. discriminate. }
    rewrite Hw in Ht', Hs'. exists st'. split; [exact Hh |].
    split; [eapply tally_eq; [exact Ht' | lia | lia] |].
    rewrite Hs'. apply app_nil_r.
  - intros Hacc.
    destruct (fetch_urls_returns w self urls sink_before Honly Hall Hacc)
      as (st & Hrun & _ & _ & Hfailed & _).
    eauto.
Qed.

Lemma errors_absorbed_witness :
  (world_only_Exceptions mixed_world /\ completes_all mixed_world mixed_urls) /\
  exists st sink_after,
    fetch_urls mixed_world default_fetcher mixed_urls [] = (Returned st, sink_after) /\
    st !! "failed"%string = Some 2.
Proof.
  split; [split; [exact world_only_Exceptions_mixed | exact completes_all_mixed] |].
  destruct (errors_absorbed mixed_world default_fetcher mixed_urls []
              world_only_Exceptions_mixed completes_all_mixed) as (_ & _ & Hrun).
  exact (Hrun (writes_accepted_mixed _)).
Defined.

(** An exception that is no [Exception] is not absorbed: it leaves the task
    and ends the run. *)
Example cancellation_not_absorbed :
  fst (run_task sample_loads default_fetcher
         (mkOracle (fun _ => GetRaises (mkExc BaseExceptionOnly "")) sample_clock)
         "u") = Raised (mkExc BaseExceptionOnly "").
Proof. reflexivity. Qed.

(** The scenario of five URLs, three served, one answered with 500 forever and
    one timing out forever, with [max_retries = 2]: three records in the
    sink, three successes and two failures. *)
Example mixed_run :
  exists st,
    fetch_urls mixed_world default_fetcher mixed_urls [] =
      (Returned st,
       [mkSinkRecord "http://c" (JDict []); mkSinkRecord "http://a" (JDict []);
        mkSinkRecord "http://b" (JDict [])]) /\
    st !! "total"%string = Some 5 /\
    st !! "successful"%string = Some 3 /\
    st !! "failed"%string = Some 2.
Proof.
  destruct (fetch_urls_returns mixed_world default_fetcher mixed_urls []
              world_only_Exceptions_mixed completes_all_mixed
              (writes_accepted_mixed _))
    as (st & Hrun & Ht & Ha & Hb & _).
  exists st. repeat split; assumption.
Qed.

(** The same scenario on a disk with room for one record: the second write
    raises, the run raises with it and the file keeps the first record. *)
Example full_disk_run :
  fetch_urls full_disk_world default_fetcher mixed_urls [] =
    (Raised (mkExc OSError "[Errno 28] No space left on device"),
     [mkSinkRecord "http://c" (JDict [])]).
Proof. reflexivity. Qed.

(** The scenario of a body that is no JSON on the first two attempts and an
    object on the third: success after exactly three exchanges, with sleeps
    of 1 and 2 between them. *)
Example recovery_on_third_attempt :
  run_task sample_loads default_fetcher recovers_on_third "u" =
    (Returned (mkFetchResult "u" true (JDict []) None 3),
     mkTaskState 3
       [EvAcquire; EvGetBegin "u"; EvGetEnd; EvRelease; EvSleepBegin 1; EvSleepEnd;
        EvAcquire; EvGetBegin "u"; EvGetEnd; EvRelease; EvSleepBegin 2; EvSleepEnd;
        EvAcquire; EvGetBegin "u"; EvGetEnd; EvRelease]).
Proof. reflexivity. Qed.

(** ** Empty input *)

(** C10, as amended. For an empty list of URLs [fetch_urls] returns statistics
    with [total], [successful] and [failed] all 0 and leaves the output file
    empty; [fetch_urls_from_file], when it reads no URL, returns the empty
    dictionary and leaves the output file as it was. *)
Theorem empty_input_result w self sink_before :
  (exists st,
      fetch_urls w self [] sink_before = (Returned st, []) /\
      st !! "total"%string = Some 0 /\
      st !! "successful"%string = Some 0 /\
      st !! "failed"%string = Some 0) /\
  (forall input_file max_concurrent timeout max_retries limit,
      read_urls_from_file input_file limit = Returned [] ->
      fetch_urls_from_file w input_file sink_before
        max_concurrent timeout max_retries limit = (Returned ∅, sink_before)).
Proof.
  split.
  - assert (Hdone : completed w self [] = []).
    { unfold completed, tasks. simpl.
      induction (order w) as [| i l IH]; [reflexivity | exact IH]. }
    unfold fetch_urls. rewrite Hdone. simpl.
    eexists. split; [reflexivity |].
    unfold initial_stats. simpl. repeat split; by simplify_map_eq.
  - intros input_file mc t mr limit Hread.
    unfold fetch_urls_from_file. rewrite Hread. reflexivity.
Qed.

(** C10 as worded fails for [fetch_urls_from_file]: on a file without URLs the
    returned dictionary has no entry [total]. *)
Lemma empty_file_result_has_no_total :
  ~ (forall st sink_after,
       fetch_urls_from_file mixed_world (mkInputFile "src/6/1.csv" (Some [])) []
         5 10 2 None = (Returned st, sink_after) ->
       st !! "total"%string = Some 0 /\
       st !! "successful"%string = Some 0 /\
       st !! "failed"%string = Some 0).
Proof.
  intros H.
  destruct (H ∅ [] eq_refl) as [Htotal _].
  rewrite lookup_empty in Htotal. discriminate.
Qed.

(** ** The semaphore *)

Lemma count_app p l1 l2 : count p (l1 ++ l2) = count p l1 + count p l2.
Proof.
  induction l1 as [| e l1 IH]; simpl; [reflexivity |]. rewrite IH. lia.
Qed.

Lemma phase_after_app l1 : forall p l2,
  phase_after p (l1 ++ l2) =
    match phase_after p l1 with
    | Some p' => phase_after p' l2
    | None => None
    end.
Proof.
  induction l1 as [| e l1 IH]; intros p l2; simpl; [reflexivity |].
  destruct (advance p e); [apply IH | reflexivity].
Qed.

(** The counts over the events of a task are determined by its phase. *)
Lemma phase_after_counts l : forall p p',
  phase_after p l = Some p' ->
  count is_acquire l - count is_release l = phase_holds p' - phase_holds p /\
  count is_get_begin l - count is_get_end l = phase_exchanges p' - phase_exchanges p /\
  count is_sleep_begin l - count is_sleep_end l = phase_sleeps p' - phase_sleeps p.
Proof.
  induction l as [| e l IH]; intros p p' Hrun; simpl in Hrun.
  - inversion Hrun. simpl. lia.
  - destruct (advance p e) as [p1 |] eqn:Hadv; [| discriminate].
    destruct (IH _ _ Hrun) as (H1 & H2 & H3).
    destruct p, e; simpl in Hadv; try discriminate;
      inversion Hadv; subst p1; simpl in *; lia.
Qed.

Lemma schedule_accepted u m : forall a,
  phase_after Idle (schedule u m a) =
    Some (match m with O => Idle | S _ => Released end).
Proof.
  induction m as [| m IH]; intros a; [reflexivity |].
  destruct m as [| m']; [reflexivity |].
  rewrite schedule_step by lia. simpl. apply (IH (S a)).
Qed.

Lemma total_insert f l : forall i t t',
  l !! i = Some t ->
  total f (<[i := t']> l) = total f l - f t + f t'.
Proof.
  induction l as [| x l IH]; intros i t t' Hi; [discriminate |].
  destruct i as [| i]; simpl in *.
  - inversion Hi. lia.
  - rewrite (IH i t t' Hi). lia.
Qed.

Lemma total_le f g l :
  Forall (fun t => f t <= g t) l -> total f l <= total g l.
Proof.
  induction 1 as [| t l Ht _ IH]; simpl; lia.
Qed.

Lemma task_ok_counts t :
  task_ok t ->
  exists p, phase_after Idle (past t) = Some p /\
            slots_held_by t = phase_holds p /\
            exchanging t = phase_exchanges p /\
            sleeping t = phase_sleeps p.
Proof.
  intros (p & q & Hpast & _ & _). exists p. split; [exact Hpast |].
  destruct (phase_after_counts _ _ _ Hpast) as (H1 & H2 & H3).
  unfold slots_held_by, exchanging, sleeping. simpl in *. lia.
Qed.

Lemma initial_system_inv w self urls :
  0 <= semaphore self ->
  sys_inv (semaphore self) (initial_system w self urls).
Proof.
  intros Hsem. unfold sys_inv, initial_system. simpl.
  assert (Hall : Forall (fun t => task_ok t /\ slots_held_by t = 0)
            ((fun t => mkTaskRun [] (events (snd t))) <$> tasks w self urls)).
  { apply Forall_fmap, Forall_forall. intros [out st] Hin.
    unfold tasks in Hin. apply list_elem_of_lookup in Hin. destruct Hin as [i Hi].
    rewrite list_lookup_imap in Hi.
    destruct (urls !! i) as [u |]; [| discriminate].
    simpl in Hi. inversion Hi as [Hrun].
    unfold compose. simpl. split; [| reflexivity].
    exists Idle. eexists. simpl. split; [reflexivity |].
    destruct (run_task_schedule (json_loads w) self (oracle w i) u) as [Hev _].
    rewrite Hrun in Hev |- *. simpl in Hev |- *. rewrite Hev.
    split; [apply schedule_accepted |].
    destruct (calls st); exact I. }
  split; [exact Hsem |]. split.
  - induction Hall as [| t l [_ Ht] _ IH]; simpl; lia.
  - eapply Forall_impl; [exact Hall |]. intros t [Hok _]. exact Hok.
Qed.

Lemma step_preserves_inv cap sys sys' :
  sys_inv cap sys -> step sys sys' -> sys_inv cap sys'.
Proof.
  intros (Hsem & Hsum & Hok) Hstep.
  destruct Hstep as [sys i t e rest Hi Hfut Hfire].
  unfold sys_inv. simpl.
  assert (Hheld : slots_held_by (mkTaskRun (past t ++ [e]) rest) =
                  slots_held_by t + (sem_value sys - sem_after e (sem_value sys))).
  { unfold slots_held_by. simpl. rewrite !count_app.
    destruct e; simpl; lia. }
  split; [destruct e; simpl in *; lia |].
  split.
  - rewrite (total_insert _ _ _ _ _ Hi), Hheld. lia.
  - apply Forall_insert; [exact Hok |].
    pose proof (proj1 (Forall_lookup _ _) Hok i t Hi) as (p & q & Hpast & Hfuture & Hrest).
    rewrite Hfut in Hfuture. simpl in Hfuture.
    destruct (advance p e) as [p1 |] eqn:Hadv; [| discriminate].
    exists p1, q. simpl. rewrite phase_after_app, Hpast. simpl. rewrite Hadv.
    auto.
Qed.

Lemma reachable_inv w self urls sys :
  0 <= semaphore self ->
  reachable w self urls sys ->
  sys_inv (semaphore self) sys.
Proof.
  intros Hsem. unfold reachable. revert sys. apply rtc_ind_r.
  - apply initial_system_inv. exact Hsem.
  - intros sys sys' _ Hstep IH. eapply step_preserves_inv; eassumption.
Qed.

(** C8. In every state a run can reach, the number of tasks inside a
    Transport exchange does not exceed [max_concurrent]; a task inside a
    backoff sleep holds no slot; and the event of a task right after the end
    of its exchange is the release of its slot. *)
Theorem semaphore_bounds_exchanges w self urls sys max_concurrent0 timeout0 max_retries0 :
  URLFetcher_init max_concurrent0 timeout0 max_retries0 = Returned self ->
  reachable w self urls sys ->
  active_exchanges sys <= max_concurrent self /\
  (forall i t,
      runs sys !! i = Some t ->
      (0 < sleeping t -> slots_held_by t = 0) /\
      (forall pre, past t = pre ++ [EvGetEnd] ->
                   exists rest, future t = EvRelease :: rest)).
Proof.
  intros Hinit Hreach.
  unfold URLFetcher_init in Hinit.
  destruct (max_concurrent0 <? 0) eqn:Hneg; [discriminate |].
  apply Z.ltb_ge in Hneg. injection Hinit as Hself.
  assert (Hcap : semaphore self = max_concurrent self) by (subst self; reflexivity).
  assert (Hsem : 0 <= semaphore self) by (subst self; simpl; lia).
  destruct (reachable_inv w self urls sys Hsem Hreach) as (Hvalue & Hsum & Hok).
  split.
  - assert (Hle : total exchanging (runs sys) <= total slots_held_by (runs sys)).
    { apply total_le. eapply Forall_impl; [exact Hok |].
      intros t Ht. destruct (task_ok_counts t Ht) as (p & _ & -> & -> & _).
      destruct p; simpl; lia. }
    unfold active_exchanges. lia.
  - intros i t Hi.
    pose proof (proj1 (Forall_lookup _ _) Hok i t Hi) as Ht.
    split.
    + intros Hsleep. destruct (task_ok_counts t Ht) as (p & _ & -> & _ & Hs).
      rewrite Hs in Hsleep. destruct p; simpl in *; lia.
    + intros pre Hpast. destruct Ht as (p & q & Hp & Hq & Hrest).
      rewrite Hpast, phase_after_app in Hp.
      destruct (phase_after Idle pre) as [p0 |]; [| discriminate].
      simpl in Hp.
      destruct p0; simpl in Hp; try discriminate. inversion Hp; subst p.
      destruct (future t) as [| e rest]; simpl in Hq.
      * inversion Hq; subst q. destruct Hrest.
      * destruct e; simpl in Hq; try discriminate. eauto.
Qed.

Lemma semaphore_bounds_exchanges_witness :
  exists sys,
    (URLFetcher_init 5 30 2 = Returned default_fetcher /\
     reachable mixed_world default_fetcher mixed_urls sys) /\
    active_exchanges sys = 2 /\
    active_exchanges sys <= max_concurrent default_fetcher.
Proof.
  eexists. split; [split; [reflexivity |] |].
  - unfold reachable.
    eapply rtc_l.
    { eapply (step_task _ 0%nat); [reflexivity | reflexivity | simpl; lia]. }
    eapply rtc_l.
    { eapply (step_task _ 3%nat); [reflexivity | reflexivity | simpl; lia]. }
    eapply rtc_l.
    { eapply (step_task _ 0%nat); [reflexivity | reflexivity | exact I]. }
    eapply rtc_l.
    { eapply (step_task _ 3%nat); [reflexivity | reflexivity | exact I]. }
    apply rtc_refl.
  - split; [reflexivity |].
    eapply (semaphore_bounds_exchanges mixed_world default_fetcher mixed_urls _ 5 30 2);
      [reflexivity |].
    unfold reachable.
    eapply rtc_l.
    { eapply (step_task _ 0%nat); [reflexivity | reflexivity | simpl; lia]. }
    eapply rtc_l.
    { eapply (step_task _ 3%nat); [reflexivity | reflexivity | simpl; lia]. }
    eapply rtc_l.
    { eapply (step_task _ 0%nat); [reflexivity | reflexivity | exact I]. }
    eapply rtc_l.
    { eapply (step_task _ 3%nat); [reflexivity | reflexivity | exact I]. }
    apply rtc_refl.
Defined.

(** ** Reading the URL list *)

Lemma rstrip_keeps_head c s :
  is_space c = false -> rstrip (String c s) = String c (rstrip s).
Proof.
  intros Hc. simpl. rewrite Hc. destruct (rstrip s); reflexivity.
Qed.

Lemma rstrip_idempotent s : rstrip (rstrip s) = rstrip s.
Proof.
  induction s as [| c s IH]; [reflexivity |].
  simpl. destruct (rstrip s) as [| c' r] eqn:Hr.
  - destruct (is_space c) eqn:Hc; [reflexivity |].
    simpl. rewrite Hc. reflexivity.
  - change (rstrip (String c (String c' r))) with
      (match rstrip (String c' r) with
       | EmptyString => if is_space c then EmptyString else String c EmptyString
       | r0 => String c r0
       end).
    rewrite IH. reflexivity.
Qed.

Lemma lstrip_head s :
  lstrip s = EmptyString \/
  exists c s', lstrip s = String c s' /\ is_space c = false.
Proof.
  induction s as [| c s IH]; [left; reflexivity |].
  simpl. destruct (is_space c) eqn:Hc; [exact IH | right; eauto].
Qed.

Lemma strip_idempotent s : strip (strip s) = strip s.
Proof.
  unfold strip.
  destruct (lstrip_head s) as [-> | (c & s' & -> & Hc)]; [reflexivity |].
  rewrite (rstrip_keeps_head c s' Hc). simpl lstrip. rewrite Hc.
  rewrite <- (rstrip_keeps_head c s' Hc). apply rstrip_idempotent.
Qed.

(** The loop with its [break] keeps the lines that pass the test, up to the
    limit. *)
Lemma collect_urls_unlimited lines : forall urls,
  collect_urls None lines urls = urls ++ List.filter keeps (strip <$> lines).
Proof.
  induction lines as [| line lines IH]; intros urls; simpl.
  - by rewrite app_nil_r.
  - fold (keeps (strip line)). destruct (keeps (strip line)).
    + rewrite IH, <- app_assoc. reflexivity.
    + apply IH.
Qed.

Lemma collect_urls_limited l lines : forall urls,
  (length urls <= Z.to_nat l)%nat ->
  collect_urls (Some l) lines urls =
    take (Z.to_nat l) (urls ++ List.filter keeps (strip <$> lines)).
Proof.
  induction lines as [| line lines IH]; intros urls Hlen; simpl.
  - rewrite app_nil_r, take_ge by lia. reflexivity.
  - destruct (l <=? Z.of_nat (length urls)) eqn:Hfull.
    + apply Z.leb_le in Hfull.
      rewrite take_app_le by lia. rewrite take_ge by lia. reflexivity.
    + apply Z.leb_gt in Hfull.
      fold (keeps (strip line)). destruct (keeps (strip line)).
      * rewrite IH by (rewrite length_app; simpl; lia).
        rewrite <- app_assoc. reflexivity.
      * apply IH. exact Hlen.
Qed.

Lemma read_urls_from_file_lines path lines limit :
  read_urls_from_file (mkInputFile path (Some lines)) limit =
    Returned (collect_urls limit (data_lines lines) []).
Proof.
  unfold read_urls_from_file, data_lines. simpl.
  destruct lines as [| first rest]; [reflexivity |].
  destruct (String.eqb (lower (strip first)) "url"); reflexivity.
Qed.

(** X1. Without a limit, [read_urls_from_file] returns, in file order, the
    stripped lines that are neither empty nor comments, the header line
    apart; a line is stripped of the white space of [str.strip()], U+0085
    and U+00A0 included. *)
Theorem read_urls_keeps_stripped_lines path lines :
  read_urls_from_file (mkInputFile path (Some lines)) None =
    Returned (List.filter keeps (strip <$> data_lines lines)).
Proof.
  rewrite read_urls_from_file_lines, collect_urls_unlimited. reflexivity.
Qed.

(** X2. With a limit [l], [read_urls_from_file] returns the first [l] of the
    URLs it returns without a limit (none for [l <= 0]), so never more than
    [l]. *)
Theorem read_urls_limit_is_prefix path lines l :
  exists all,
    read_urls_from_file (mkInputFile path (Some lines)) None = Returned all /\
    read_urls_from_file (mkInputFile path (Some lines)) (Some l) =
      Returned (take (Z.to_nat l) all) /\
    Z.of_nat (length (take (Z.to_nat l) all)) <= Z.max 0 l.
Proof.
  exists (List.filter keeps (strip <$> data_lines lines)).
  split; [rewrite read_urls_from_file_lines, collect_urls_unlimited; reflexivity |].
  split.
  - rewrite read_urls_from_file_lines, collect_urls_limited by (simpl; lia).
    reflexivity.
  - rewrite length_take. lia.
Qed.

Lemma keeps_stripped_line line :
  keeps (strip line) = true ->
  nonempty (strip line) = true /\
  String.prefix "#" (strip line) = false /\
  strip (strip line) = strip line.
Proof.
  unfold keeps. intros H. apply andb_prop in H. destruct H as [Hne Hcomment].
  apply negb_true_iff in Hcomment.
  split; [exact Hne |]. split; [exact Hcomment | apply strip_idempotent].
Qed.

(** X3. Every URL [read_urls_from_file] returns, with or without a limit, is
    not empty, does not start with [#], and has no white space at either
    end: stripping it again changes nothing. *)
Theorem read_urls_are_clean path lines limit urls url :
  read_urls_from_file (mkInputFile path (Some lines)) limit = Returned urls ->
  url ∈ urls ->
  nonempty url = true /\ String.prefix "#" url = false /\ strip url = url.
Proof.
  intros Hread Hin.
  assert (Hall : url ∈ List.filter keeps (strip <$> data_lines lines)).
  { rewrite read_urls_from_file_lines in Hread.
    destruct limit as [l |].
    - rewrite collect_urls_limited in Hread by (simpl; lia).
      simpl in Hread. inversion Hread; subst urls.
      apply elem_of_take in Hin. destruct Hin as (i & Hi & _).
      eapply list_elem_of_lookup_2; eassumption.
    - rewrite collect_urls_unlimited in Hread. simpl in Hread.
      inversion Hread; subst urls. exact Hin. }
  apply list_elem_of_In, filter_In in Hall. destruct Hall as [Hline Hkeep].
  apply list_elem_of_In, list_elem_of_fmap in Hline.
  destruct Hline as (line & -> & _).
  apply keeps_stripped_line. exact Hkeep.
Qed.

Lemma read_urls_are_clean_witness :
  read_urls_from_file sample_input (Some 2) =
    Returned ["http://a"; "http://b"]%string /\
  "http://a"%string ∈ ["http://a"; "http://b"]%string /\
  (nonempty "http://a" = true /\ String.prefix "#" "http://a" = false /\
   strip "http://a" = "http://a"%string).
Proof.
  split; [reflexivity |].
  split; [apply list_elem_of_here |].
  apply (read_urls_are_clean "src/6/1.csv" sample_file (Some 2)
           ["http://a"; "http://b"]%string "http://a"%string);
    [reflexivity | apply list_elem_of_here].
Defined.

(** ** Where a task stops *)

Lemma timeout_is_Exception e :
  isinstance_TimeoutError e = true -> isinstance_Exception e = true.
Proof. destruct e as [[] msg]; simpl; intros H; first [reflexivity | discriminate]. Qed.

Lemma client_error_is_Exception e :
  isinstance_ClientError e = true -> isinstance_Exception e = true.
Proof. destruct e as [[] msg]; simpl; intros H; first [reflexivity | discriminate]. Qed.

(** An iteration falls through to the next one only after an exchange that
    is retried. *)
Lemma loop_body_next loads self o u attempt s :
  fst (loop_body loads self o u attempt s) = FlowNext ->
  retried loads (exchange o (calls s)).
Proof.
  unfold retried, loop_body, try_suite, except_clauses, with_response,
    return_success, return_if_last, bind, emit, session_get, since_start, ret.
  simpl.
  destruct (exchange o (calls s)) as [e | status body]; simpl.
  - destruct (isinstance_TimeoutError e) eqn:Htime.
    { intros _. split; [reflexivity |]. intros e0 [= <-].
      apply timeout_is_Exception. exact Htime. }
    destruct (isinstance_ClientError e) eqn:Hclient.
    { intros _. split; [reflexivity |]. intros e0 [= <-].
      apply client_error_is_Exception. exact Hclient. }
    destruct (isinstance_Exception e) eqn:Hexc.
    { intros _. split; [reflexivity |]. intros e0 [= <-]. exact Hexc. }
    simpl. discriminate.
  - destruct (status =? 200) eqn:Hst.
    + destruct body as [text | e]; simpl.
      * destruct (loads text) as [v | e] eqn:Hloads; simpl; [discriminate |].
        destruct (isinstance_JSONDecodeError e) eqn:Hjson.
        { intros _. split; [reflexivity | discriminate]. }
        simpl.
        destruct (isinstance_TimeoutError e) eqn:Htime.
        { intros _. split; [reflexivity |]. intros e0 [= <-].
          apply timeout_is_Exception. exact Htime. }
        destruct (isinstance_ClientError e) eqn:Hclient.
        { intros _. split; [reflexivity |]. intros e0 [= <-].
          apply client_error_is_Exception. exact Hclient. }
        destruct (isinstance_Exception e) eqn:Hexc.
        { intros _. split; [reflexivity |]. intros e0 [= <-]. exact Hexc. }
        simpl. discriminate.
      * destruct (isinstance_TimeoutError e) eqn:Htime.
        { intros _. split; [reflexivity |]. intros e0 [= <-].
          apply timeout_is_Exception. exact Htime. }
        destruct (isinstance_ClientError e) eqn:Hclient.
        { intros _. split; [reflexivity |]. intros e0 [= <-].
          apply client_error_is_Exception. exact Hclient. }
        destruct (isinstance_Exception e) eqn:Hexc.
        { intros _. split; [reflexivity |]. intros e0 [= <-]. exact Hexc. }
        simpl. discriminate.
    + intros _. split; [reflexivity | discriminate].
Qed.

Lemma loop_body_retry loads self o u attempt s :
  retried loads (exchange o (calls s)) ->
  attempt <> max_retries self ->
  fst (loop_body loads self o u attempt s) = FlowNext.
Proof.
  intros [Hfail Hcaught] Hnotlast.
  destruct (loop_body_run loads self o u attempt s) as (_ & _ & Hflow).
  destruct (fst (loop_body loads self o u attempt s)) as [r | e |];
    [| | reflexivity]; simpl in Hflow.
  - destruct Hflow as [_ Hflow]. destruct (success r).
    + destruct Hflow as (_ & text & Hex & Hload).
      rewrite Hex in Hfail. simpl in Hfail. rewrite Hload in Hfail. discriminate.
    + destruct Hflow as [Hlast _]. contradiction.
  - destruct Hflow as [Hreach Hexc].
    rewrite (Hcaught e Hreach) in Hexc. discriminate.
Qed.

Lemma terminal_reason_caught loads ex msg e :
  terminal_reason loads ex msg ->
  reaches_handlers loads ex = Some e ->
  isinstance_Exception e = true.
Proof.
  intros Hmsg Hreach.
  destruct Hmsg as [status body Hst | text e0 Hload Hjson
                    | ex e0 Hr Htime | ex e0 Hr Htime Hclient
                    | ex e0 Hr Htime Hclient Hexc].
  - simpl in Hreach. apply Z.eqb_neq in Hst. rewrite Hst in Hreach. discriminate.
  - simpl in Hreach. rewrite Hload, Hjson in Hreach. discriminate.
  - rewrite Hr in Hreach. inversion Hreach; subst e0.
    apply timeout_is_Exception. exact Htime.
  - rewrite Hr in Hreach. inversion Hreach; subst e0.
    apply client_error_is_Exception. exact Hclient.
  - rewrite Hr in Hreach. inversion Hreach; subst e0. exact Hexc.
Qed.

(** The loop stops at the first exchange that is not retried, or at the last
    permitted one: after [k] retried exchanges, attempt [a + k] ends the
    loop. *)
Lemma for_attempts_decided loads self o u k : forall a n s,
  (k < n)%nat ->
  Z.of_nat (a + k) <= max_retries self ->
  (forall j, (j < k)%nat -> retried loads (exchange o (calls s + j))) ->
  (~ retried loads (exchange o (calls s + k)) \/
   Z.of_nat (a + k) = max_retries self) ->
  exists out s',
    for_attempts loads self o u (map Z.of_nat (seq a n)) s = (Some out, s') /\
    calls s' = (calls s + S k)%nat /\
    events s' = events s ++ schedule u (S k) a /\
    flow_explained loads self u (Z.of_nat (a + k)) (exchange o (calls s + k))
      (flow_of_outcome out).
Proof.
  induction k as [| k IH]; intros a n s Hkn Hbudget Hretried Hdecisive.
  - destruct n as [| n]; [lia |]. simpl. unfold bind.
    destruct (loop_body_run loads self o u (Z.of_nat a) s) as (Hcalls & Hev & Hflow).
    pose proof (loop_body_next loads self o u (Z.of_nat a) s) as Hnext.
    destruct (loop_body loads self o u (Z.of_nat a) s) as [fl s1].
    simpl in Hcalls, Hev, Hflow, Hnext.
    replace (a + 0)%nat with a in * by lia.
    replace (calls s + 0)%nat with (calls s) in * by lia.
    unfold iteration_events in Hev.
    destruct fl as [r | e |].
    + exists (Returned r), s1. repeat split; try assumption; try apply Hflow; lia.
    + exists (Raised e), s1. repeat split; try assumption; try apply Hflow; lia.
    + exfalso. destruct Hflow as [Hnotlast _].
      destruct Hdecisive as [Hnot | Hlast]; [apply Hnot, Hnext; reflexivity | lia].
  - destruct n as [| n]; [lia |].
    change (seq a (S n)) with (a :: seq (S a) n).
    cbn [map for_attempts]. unfold bind.
    destruct (loop_body_run loads self o u (Z.of_nat a) s) as (Hcalls & Hev & _).
    pose proof (loop_body_retry loads self o u (Z.of_nat a) s) as Hnext.
    destruct (loop_body loads self o u (Z.of_nat a) s) as [fl s1].
    simpl in Hcalls, Hev, Hnext.
    assert (Hfl : fl = FlowNext).
    { apply Hnext; [| lia].
      specialize (Hretried 0%nat ltac:(lia)).
      replace (calls s + 0)%nat with (calls s) in Hretried by lia. exact Hretried. }
    subst fl.
    unfold iteration_events in Hev.
    replace (Z.of_nat a <? max_retries self) with true in Hev
      by (symmetry; apply Z.ltb_lt; lia).
    destruct (IH (S a) n s1) as (out & s' & Hfor & Hc & He & Hflow).
    + lia.
    + lia.
    + intros j Hj. replace (calls s1 + j)%nat with (calls s + S j)%nat by lia.
      apply Hretried. lia.
    + replace (calls s1 + k)%nat with (calls s + S k)%nat by lia.
      replace (S a + k)%nat with (a + S k)%nat by lia. exact Hdecisive.
    + exists out, s'. split; [exact Hfor |].
      split; [lia |].
      split.
      { rewrite He, Hev, (schedule_step u (S k) a) by lia.
        rewrite <- !app_assoc. reflexivity. }
      replace (a + S k)%nat with (S a + k)%nat by lia.
      replace (calls s + S k)%nat with (calls s1 + k)%nat by lia.
      exact Hflow.
Qed.

(** The same for a whole task. *)
Lemma run_task_decided loads self o u k :
  Z.of_nat k <= max_retries self ->
  (forall j, (j < k)%nat -> retried loads (exchange o j)) ->
  (~ retried loads (exchange o k) \/ Z.of_nat k = max_retries self) ->
  exists out,
    run_task loads self o u = (out, mkTaskState (S k) (schedule u (S k) 0)) /\
    flow_explained loads self u (Z.of_nat k) (exchange o k) (flow_of_outcome out).
Proof.
  intros Hbudget Hretried Hdecisive.
  destruct (for_attempts_decided loads self o u k 0
              (Z.to_nat (max_retries self + 1)) init_task)
    as (out & s' & Hfor & Hcalls & Hev & Hflow);
    try assumption; try lia.
  exists out. split; [| exact Hflow].
  unfold run_task, _fetch_single_url, bind. rewrite range_seq, Hfor.
  unfold ret. f_equal. destruct s' as [c ev]. simpl in Hcalls, Hev.
  subst c ev. reflexivity.
Qed.

(** X4. The first exchange that succeeds ends the task: when the exchanges
    before exchange [k] are retried and exchange [k <= max_retries] answers
    200 with a body that parses to [v], the task returns a successful result
    for its URL with content [v] and no error, after exactly [k + 1]
    exchanges and [k] sleeps. *)
Theorem first_success_ends_task loads self o u k text v :
  Z.of_nat k <= max_retries self ->
  (forall j, (j < k)%nat -> retried loads (exchange o j)) ->
  exchange o k = GetResponse 200 (TextOk text) ->
  loads text = Loaded v ->
  exists r,
    run_task loads self o u = (Returned r, mkTaskState (S k) (schedule u (S k) 0)) /\
    url r = u /\ success r = true /\ content r = v /\ error r = None.
Proof.
  intros Hbudget Hretried Hex Hload.
  assert (Hsucc : attempt_succeeds loads (exchange o k) = true)
    by (rewrite Hex; simpl; rewrite Hload; reflexivity).
  destruct (run_task_decided loads self o u k Hbudget Hretried) as (out & Hrun & Hflow).
  { left. intros [Hfail _]. congruence. }
  destruct out as [r | e]; simpl in Hflow.
  - exists r. split; [exact Hrun |].
    destruct Hflow as [Hurl Hflow]. destruct (success r).
    + destruct Hflow as (Herr & text' & Hex' & Hload').
      rewrite Hex in Hex'. inversion Hex'; subst text'.
      rewrite Hload in Hload'. inversion Hload'. auto.
    + destruct Hflow as (_ & _ & Hfail & _). congruence.
  - destruct Hflow as [Hreach _].
    apply reaches_handlers_fails in Hreach. congruence.
Qed.

Lemma first_success_ends_task_witness :
  (Z.of_nat 2 <= max_retries default_fetcher /\
   (forall j, (j < 2)%nat -> retried sample_loads (exchange recovers_on_third j)) /\
   exchange recovers_on_third 2 = GetResponse 200 (TextOk "{}") /\
   sample_loads "{}" = Loaded (JDict [])) /\
  exists r,
    run_task sample_loads default_fetcher recovers_on_third "u" =
      (Returned r, mkTaskState 3 (schedule "u" 3 0)) /\
    url r = "u"%string /\ success r = true /\ content r = JDict [] /\ error r = None.
Proof.
  assert (Hretried : forall j, (j < 2)%nat ->
            retried sample_loads (exchange recovers_on_third j)).
  { intros j Hj. destruct j as [| [| j]]; [| | lia];
      (split; [reflexivity | discriminate]). }
  split.
  - split; [simpl; lia |]. split; [exact Hretried |]. split; reflexivity.
  - apply (first_success_ends_task sample_loads default_fetcher recovers_on_third
             "u" 2 "{}" (JDict []));
      [simpl; lia | exact Hretried | reflexivity | reflexivity].
Defined.

(** X5. An exception that is no [Exception] (a cancellation) is not retried
    and not turned into a result: when the exchanges before exchange
    [k <= max_retries] are retried and exchange [k] raises such an exception,
    the task raises it after exactly [k + 1] exchanges, whatever budget is
    left. *)
Theorem non_Exception_leaves_task loads self o u k e :
  Z.of_nat k <= max_retries self ->
  (forall j, (j < k)%nat -> retried loads (exchange o j)) ->
  reaches_handlers loads (exchange o k) = Some e ->
  isinstance_Exception e = false ->
  run_task loads self o u = (Raised e, mkTaskState (S k) (schedule u (S k) 0)).
Proof.
  intros Hbudget Hretried Hreach Hexc.
  destruct (run_task_decided loads self o u k Hbudget Hretried) as (out & Hrun & Hflow).
  { left. intros [_ Hcaught]. rewrite (Hcaught e Hreach) in Hexc. discriminate. }
  destruct out as [r | e']; simpl in Hflow.
  - exfalso. destruct Hflow as [_ Hflow]. destruct (success r).
    + destruct Hflow as (_ & text & Hex & Hload).
      rewrite Hex in Hreach. simpl in Hreach. rewrite Hload in Hreach. discriminate.
    + destruct Hflow as (_ & _ & _ & msg & _ & Hmsg).
      rewrite (terminal_reason_caught loads _ msg e Hmsg Hreach) in Hexc.
      discriminate.
  - destruct Hflow as [Hreach' _]. rewrite Hreach in Hreach'.
    inversion Hreach'; subst e'. exact Hrun.
Qed.

Lemma non_Exception_leaves_task_witness :
  (Z.of_nat 1 <= max_retries default_fetcher /\
   (forall j, (j < 1)%nat -> retried sample_loads (exchange fails_then_cancelled j)) /\
   reaches_handlers sample_loads (exchange fails_then_cancelled 1) =
     Some (mkExc BaseExceptionOnly "") /\
   isinstance_Exception (mkExc BaseExceptionOnly "") = false) /\
  run_task sample_loads default_fetcher fails_then_cancelled "u" =
    (Raised (mkExc BaseExceptionOnly ""), mkTaskState 2 (schedule "u" 2 0)).
Proof.
  assert (Hretried : forall j, (j < 1)%nat ->
            retried sample_loads (exchange fails_then_cancelled j)).
  { intros j Hj. destruct j as [| j]; [| lia].
    split; [reflexivity | discriminate]. }
  split.
  - split; [simpl; lia |]. split; [exact Hretried |]. split; reflexivity.
  - apply (non_Exception_leaves_task sample_loads default_fetcher
             fails_then_cancelled "u" 1 (mkExc BaseExceptionOnly ""));
      [simpl; lia | exact Hretried | reflexivity | reflexivity].
Defined.

(** ** More on a whole run *)

Lemma run_task_url loads self o u r :
  fst (run_task loads self o u) = Returned r -> url r = u.
Proof.
  intros Hr.
  destruct (Z.lt_ge_cases (max_retries self) 0) as [Hneg | Hpos].
  - rewrite run_task_no_budget in Hr by assumption. simpl in Hr.
    inversion Hr. reflexivity.
  - destruct (run_task_returned loads self o u r Hpos Hr)
      as (m & _ & _ & _ & _ & Hurl & _). exact Hurl.
Qed.

Lemma run_task_raised loads self o u e :
  fst (run_task loads self o u) = Raised e -> isinstance_Exception e = false.
Proof.
  intros Hr.
  destruct (Z.lt_ge_cases (max_retries self) 0) as [Hneg | Hpos].
  - rewrite run_task_no_budget in Hr by assumption. discriminate.
  - destruct (run_task_post loads self o u Hpos) as (m & _ & _ & _ & _ & _ & Hflow).
    rewrite Hr in Hflow. simpl in Hflow. apply Hflow.
Qed.

Lemma results_urls (outs : list (Outcome FetchResult)) (us : list string) :
  Forall2 (fun out u => exists r, out = Returned r /\ url r = u) outs us ->
  url <$> results_of outs = us.
Proof.
  unfold results_of.
  induction 1 as [| out u outs us (r & -> & Hurl) _ IH]; [reflexivity |].
  simpl. rewrite Hurl. f_equal. exact IH.
Qed.

Lemma filter_Permutation_bool {A : Type} (f : A -> bool) (l l' : list A) :
  Permutation l l' -> Permutation (List.filter f l) (List.filter f l').
Proof.
  induction 1 as [| x l l' _ IH | x y l | l l' l'' _ IH1 _ IH2]; simpl.
  - reflexivity.
  - destruct (f x); [constructor |]; exact IH.
  - destruct (f x), (f y); try reflexivity. apply perm_swap.
  - etransitivity; eassumption.
Qed.

(** What [fetch_urls] returns when all completed tasks returned and the file
    accepts the records. *)
Lemma fetch_urls_all_returned w self urls sink_before rs :
  completed w self urls = Returned <$> rs ->
  writes_accepted w rs ->
  exists st,
    fetch_urls w self urls sink_before =
      (Returned st, record_of <$> List.filter written rs) /\
    st !! "total"%string = Some (Z.of_nat (length urls)) /\
    st !! "successful"%string = Some (count_written rs) /\
    st !! "failed"%string = Some (count_unwritten rs).
Proof.
  intros Hrs Hacc.
  destruct (drain_returned w rs (mkRunState (initial_stats urls) [])
              _ _ _ (initial_stats_tally urls []) Hacc)
    as (st' & Hdrain & (Ht & Ha & Hb) & Hsink).
  unfold fetch_urls. rewrite Hrs, Hdrain. simpl in Hsink.
  eexists. split; [rewrite Hsink; reflexivity |].
  rewrite Z.add_0_l in Ha, Hb.
  repeat split; by simplify_map_eq.
Qed.

(** X6. A run hands on exactly one result per input URL, carrying that URL:
    the URLs of the results are the input URLs, duplicates included, up to
    the order of completion. *)
Theorem one_result_per_url w self urls :
  world_only_Exceptions w ->
  completes_all w urls ->
  completed w self urls = Returned <$> results_of (completed w self urls) /\
  Permutation (url <$> results_of (completed w self urls)) urls.
Proof.
  intros Honly Hall.
  split; [apply results_of_returned, completed_all_returned; assumption |].
  unfold results_of at 1.
  rewrite (completed_permutation w self urls Hall).
  fold (results_of (fst <$> tasks w self urls)).
  rewrite (results_urls (fst <$> tasks w self urls) urls); [reflexivity |].
  apply Forall2_same_length_lookup_2.
  - rewrite length_fmap. unfold tasks. apply length_imap.
  - intros i out u Hout Hu.
    unfold tasks in Hout. rewrite list_lookup_fmap, list_lookup_imap, Hu in Hout.
    simpl in Hout. inversion Hout as [Heq].
    destruct (run_task_returns (json_loads w) self (oracle w i) u (Honly i)) as [r Hr].
    exists r. split; [exact Hr |]. eapply run_task_url; exact Hr.
Qed.

Lemma one_result_per_url_witness :
  (world_only_Exceptions mixed_world /\ completes_all mixed_world mixed_urls) /\
  Permutation (url <$> results_of (completed mixed_world default_fetcher mixed_urls))
              mixed_urls.
Proof.
  split; [split; [exact world_only_Exceptions_mixed | exact completes_all_mixed] |].
  apply (one_result_per_url mixed_world default_fetcher mixed_urls
           world_only_Exceptions_mixed completes_all_mixed).
Defined.

(** X7. When the file accepts the records, the order in which the tasks
    complete does not change the statistics, and changes the sink only in the
    order of its records: two runs over the same URLs with the same answers
    return the same [total], [successful] and [failed], and sinks that are
    permutations of each other. *)
Theorem completion_order_irrelevant w1 w2 self urls sink1 sink2 :
  json_loads w1 = json_loads w2 ->
  oracle w1 = oracle w2 ->
  world_only_Exceptions w1 ->
  completes_all w1 urls ->
  completes_all w2 urls ->
  writes_accepted w1 (results_of (completed w1 self urls)) ->
  writes_accepted w2 (results_of (completed w2 self urls)) ->
  exists st1 st2 out1 out2,
    fetch_urls w1 self urls sink1 = (Returned st1, out1) /\
    fetch_urls w2 self urls sink2 = (Returned st2, out2) /\
    st1 !! "total"%string = st2 !! "total"%string /\
    st1 !! "successful"%string = st2 !! "successful"%string /\
    st1 !! "failed"%string = st2 !! "failed"%string /\
    Permutation out1 out2.
Proof.
  intros Hloads Horacle Honly1 Hall1 Hall2 Hacc1 Hacc2.
  assert (Honly2 : world_only_Exceptions w2).
  { intros i. rewrite <- Hloads, <- Horacle. apply Honly1. }
  assert (Htasks : tasks w1 self urls = tasks w2 self urls).
  { unfold tasks. rewrite Hloads, Horacle. reflexivity. }
  assert (Hperm : Permutation (results_of (completed w1 self urls))
                              (results_of (completed w2 self urls))).
  { unfold results_of.
    rewrite (completed_permutation w1 self urls Hall1).
    rewrite (completed_permutation w2 self urls Hall2).
    rewrite Htasks. reflexivity. }
  destruct (fetch_urls_all_returned w1 self urls sink1 _
              (results_of_returned _ (completed_all_returned w1 self urls Honly1)) Hacc1)
    as (st1 & Hrun1 & Ht1 & Ha1 & Hb1).
  destruct (fetch_urls_all_returned w2 self urls sink2 _
              (results_of_returned _ (completed_all_returned w2 self urls Honly2)) Hacc2)
    as (st2 & Hrun2 & Ht2 & Ha2 & Hb2).
  exists st1, st2. do 2 eexists.
  split; [exact Hrun1 |]. split; [exact Hrun2 |].
  split; [congruence |].
  split.
  { rewrite Ha1, Ha2. unfold count_written.
    rewrite (Permutation_length (filter_Permutation_bool written _ _ Hperm)).
    reflexivity. }
  split.
  { rewrite Hb1, Hb2. unfold count_unwritten.
    rewrite (Permutation_length
               (filter_Permutation_bool (fun r => negb (written r)) _ _ Hperm)).
    reflexivity. }
  apply fmap_Permutation, filter_Permutation_bool. exact Hperm.
Qed.

Lemma completion_order_irrelevant_witness :
  (json_loads mixed_world = json_loads mixed_world_in_order /\
   oracle mixed_world = oracle mixed_world_in_order /\
   world_only_Exceptions mixed_world /\
   completes_all mixed_world mixed_urls /\
   completes_all mixed_world_in_order mixed_urls /\
   writes_accepted mixed_world
     (results_of (completed mixed_world default_fetcher mixed_urls)) /\
   writes_accepted mixed_world_in_order
     (results_of (completed mixed_world_in_order default_fetcher mixed_urls))) /\
  exists st1 st2 out1 out2,
    fetch_urls mixed_world default_fetcher mixed_urls [] = (Returned st1, out1) /\
    fetch_urls mixed_world_in_order default_fetcher mixed_urls [] = (Returned st2, out2) /\
    st1 !! "total"%string = st2 !! "total"%string /\
    st1 !! "successful"%string = st2 !! "successful"%string /\
    st1 !! "failed"%string = st2 !! "failed"%string /\
    Permutation out1 out2.
Proof.
  assert (Hin_order : completes_all mixed_world_in_order mixed_urls)
    by (unfold completes_all; reflexivity).
  assert (Hacc2 : writes_accepted mixed_world_in_order
            (results_of (completed mixed_world_in_order default_fetcher mixed_urls)))
    by (apply always_accepted; reflexivity).
  split.
  - split; [reflexivity |]. split; [reflexivity |].
    split; [exact world_only_Exceptions_mixed |].
    split; [exact completes_all_mixed |].
    split; [exact Hin_order |].
    split; [apply writes_accepted_mixed | exact Hacc2].
  - apply (completion_order_irrelevant mixed_world mixed_world_in_order
             default_fetcher mixed_urls [] [] eq_refl eq_refl
             world_only_Exceptions_mixed completes_all_mixed Hin_order
             (writes_accepted_mixed _) Hacc2).
Defined.


Lemma drain_app_returned w pre rest : forall st t a b,
  tally t a b st ->
  writes_accepted w pre ->
  exists st',
    drain w ((Returned <$> pre) ++ rest) st = drain w rest st' /\
    tally t (a + count_written pre) (b + count_unwritten pre) st' /\
    sink st' = sink st ++ (record_of <$> List.filter written pre).
Proof.
  unfold count_written, count_unwritten.
  induction pre as [| r pre IH]; intros st t a b Htally Hacc.
  - exists st. simpl. rewrite !Z.add_0_r, app_nil_r. auto.
  - apply writes_accepted_cons in Hacc. destruct Hacc as [Hr Hacc].
    destruct (handle_result_tally w r st t a b Htally (Hr _)) as (st1 & Hh & Ht1 & Hs1).
    destruct (IH st1 _ _ _ Ht1 Hacc) as (st2 & Hd & Ht2 & Hs2).
    exists st2. simpl. rewrite Hh. split; [exact Hd |].
    rewrite Hs2, Hs1. destruct (written r); simpl.
    + split; [| by rewrite <- app_assoc].
      eapply tally_eq; [exact Ht2 | lia | lia].
    + split; [| by rewrite app_nil_r].
      eapply tally_eq; [exact Ht2 | lia | lia].
Qed.

(** X9. A task that raises ends the run at the moment it is awaited: when
    the file has accepted the records of the results handled before, the run
    raises the exception of the task, returns no statistics, and the file
    keeps those records, the tasks completing later being left unhandled. *)
Theorem raising_task_aborts_run w self urls sink_before pre e post :
  completed w self urls = (Returned <$> pre) ++ Raised e :: post ->
  writes_accepted w pre ->
  fetch_urls w self urls sink_before =
    (Raised e, record_of <$> List.filter written pre).
Proof.
  intros Hdone Hacc. unfold fetch_urls. rewrite Hdone.
  destruct (drain_app_returned w pre (Raised e :: post)
              (mkRunState (initial_stats urls) []) _ _ _
              (initial_stats_tally urls []) Hacc)
    as (st & Hdrain & _ & Hsink).
  rewrite Hdrain. simpl. simpl in Hsink. rewrite Hsink. reflexivity.
Qed.

Lemma raising_task_aborts_run_witness :
  (completed cancelled_world default_fetcher three_urls =
     (Returned <$> [mkFetchResult "http://c" true (JDict []) None 1]) ++
     Raised (mkExc BaseExceptionOnly "") ::
     [Returned (mkFetchResult "http://a" true (JDict []) None 1)] /\
   writes_accepted cancelled_world
     [mkFetchResult "http://c" true (JDict []) None 1]) /\
  fetch_urls cancelled_world default_fetcher three_urls [] =
    (Raised (mkExc BaseExceptionOnly ""), [mkSinkRecord "http://c" (JDict [])]).
Proof.
  assert (Hacc : writes_accepted cancelled_world
                   [mkFetchResult "http://c" true (JDict []) None 1])
    by (apply always_accepted; reflexivity).
  split; [split; [reflexivity | exact Hacc] |].
  apply (raising_task_aborts_run cancelled_world default_fetcher three_urls []
           [mkFetchResult "http://c" true (JDict []) None 1]
           (mkExc BaseExceptionOnly "")
           [Returned (mkFetchResult "http://a" true (JDict []) None 1)]
           eq_refl Hacc).
Defined.

Lemma drain_raised w outs : forall st t a b e,
  tally t a b st ->
  fst (drain w outs st) = Raised e ->
  Raised e ∈ outs \/
  exists n r, Returned r ∈ outs /\ written r = true /\
              sink_write w n (record_of r) = Raised e.
Proof.
  induction outs as [| out outs IH]; intros st t a b e Htally Hraise.
  - discriminate.
  - destruct out as [r | e0]; simpl in Hraise.
    + destruct (handle_result_cases w r st t a b Htally)
        as [(st1 & Hh & Ht1 & _) | (e1 & Hw & Hwrite & Hh)].
      * rewrite Hh in Hraise.
        destruct (IH st1 _ _ _ e Ht1 Hraise) as [Hin | (n & r' & Hin & Hw & Hwrite)].
        -- left. apply list_elem_of_further. exact Hin.
        -- right. exists n, r'. split; [apply list_elem_of_further; exact Hin | auto].
      * rewrite Hh in Hraise. simpl in Hraise. inversion Hraise; subst e1.
        right. exists (length (sink st)), r.
        split; [apply list_elem_of_here | auto].
    + inversion Hraise. left. apply list_elem_of_here.
Qed.

(** X10. The loop over the completed tasks (lines 168-182) raises nothing of
    its own: whatever it raises was either raised by the task of one of the
    URLs, and is then no [Exception], or raised by the write of the record of
    a successful result whose task returned it. The updates of the
    statistics add no [KeyError] of their own. *)
Theorem loop_raises_only_task_or_write_errors w self urls e :
  fst (drain w (completed w self urls) (mkRunState (initial_stats urls) [])) =
    Raised e ->
  (isinstance_Exception e = false /\
   exists i u,
     urls !! i = Some u /\
     fst (run_task (json_loads w) self (oracle w i) u) = Raised e) \/
  (exists n i u r,
     urls !! i = Some u /\
     fst (run_task (json_loads w) self (oracle w i) u) = Returned r /\
     written r = true /\
     sink_write w n (record_of r) = Raised e).
Proof.
  intros Hraise.
  destruct (drain_raised w (completed w self urls)
              (mkRunState (initial_stats urls) []) _ _ _ e
              (initial_stats_tally urls []) Hraise)
    as [Hin | (n & r & Hin & Hw & Hwrite)].
  - left. apply completed_from_task in Hin. destruct Hin as (i & u & Hu & Hrun).
    split; [| eauto].
    eapply run_task_raised. symmetry. exact Hrun.
  - right. apply completed_from_task in Hin. destruct Hin as (i & u & Hu & Hrun).
    exists n, i, u, r. auto.
Qed.

Lemma loop_raises_only_task_or_write_errors_witness :
  fst (drain full_disk_world (completed full_disk_world default_fetcher mixed_urls)
         (mkRunState (initial_stats mixed_urls) [])) =
    Raised (mkExc OSError "[Errno 28] No space left on device") /\
  exists n i u r,
    mixed_urls !! i = Some u /\
    fst (run_task (json_loads full_disk_world) default_fetcher
           (oracle full_disk_world i) u) = Returned r /\
    written r = true /\
    sink_write full_disk_world n (record_of r) =
      Raised (mkExc OSError "[Errno 28] No space left on device").
Proof.
  split; [reflexivity |].
  destruct (loop_raises_only_task_or_write_errors full_disk_world default_fetcher
              mixed_urls (mkExc OSError "[Errno 28] No space left on device") eq_refl)
    as [[Hexc _] | Hwrite].
  - discriminate Hexc.
  - exact Hwrite.
Defined.

Lemma all_unwritten (outs : list (Outcome FetchResult)) :
  Forall (fun out => exists r, out = Returned r /\ written r = false) outs ->
  outs = Returned <$> results_of outs /\
  List.filter written (results_of outs) = [].
Proof.
  unfold results_of.
  induction 1 as [| out outs (r & -> & Hw) _ [IH1 IH2]]; [split; reflexivity |].
  simpl. rewrite Hw. split; [f_equal; exact IH1 | exact IH2].
Qed.

Lemma nothing_to_write w rs :
  List.filter written rs = [] -> writes_accepted w rs.
Proof.
  intros Hnone n r Hin Hw.
  assert (Hf : In r (List.filter written rs))
    by (apply filter_In; split; [apply list_elem_of_In; exact Hin | exact Hw]).
  rewrite Hnone in Hf. destruct Hf.
Qed.

(** X11. With a negative [max_retries] no request is made at all: every task
    ends without an exchange, every URL is counted as failed, and the file is
    left empty. *)
Theorem no_budget_fails_every_url w self urls sink_before :
  max_retries self < 0 ->
  completes_all w urls ->
  (forall i u, snd (run_task (json_loads w) self (oracle w i) u) = init_task) /\
  exists st,
    fetch_urls w self urls sink_before = (Returned st, []) /\
    st !! "total"%string = Some (Z.of_nat (length urls)) /\
    st !! "successful"%string = Some 0 /\
    st !! "failed"%string = Some (Z.of_nat (length urls)).
Proof.
  intros Hneg Hall. split.
  - intros i u. rewrite run_task_no_budget by assumption. reflexivity.
  - assert (Hdone : Forall (fun out => exists r, out = Returned r /\ written r = false)
                      (completed w self urls)).
    { apply Forall_forall. intros out Hin.
      apply completed_from_task in Hin. destruct Hin as (i & u & _ & ->).
      rewrite run_task_no_budget by assumption. simpl. eauto. }
    destruct (all_unwritten _ Hdone) as [Hrs Hnone].
    destruct (fetch_urls_all_returned w self urls sink_before _ Hrs
                (nothing_to_write w _ Hnone))
      as (st & Hrun & Ht & Ha & Hb).
    pose proof (count_written_unwritten (results_of (completed w self urls))) as Hsum.
    pose proof (completed_length w self urls Hall) as Hlen.
    rewrite Hrs, length_fmap in Hlen.
    unfold count_written in Ha, Hsum. rewrite Hnone in Hrun, Ha, Hsum.
    simpl in Hrun, Ha, Hsum.
    exists st. repeat split; try assumption.
    rewrite Hb. f_equal. lia.
Qed.

Lemma no_budget_fails_every_url_witness :
  (max_retries no_budget_fetcher < 0 /\ completes_all mixed_world mixed_urls) /\
  exists st,
    fetch_urls mixed_world no_budget_fetcher mixed_urls [] = (Returned st, []) /\
    st !! "total"%string = Some 5 /\
    st !! "successful"%string = Some 0 /\
    st !! "failed"%string = Some 5.
Proof.
  split; [split; [simpl; lia | exact completes_all_mixed] |].
  apply (no_budget_fails_every_url mixed_world no_budget_fetcher mixed_urls []);
    [simpl; lia | exact completes_all_mixed].
Defined.

(** ** From the file to the statistics *)

(** X12. [fetch_urls_from_file] on a file that yields URLs, with
    [max_concurrent >= 1], when every error of the transport and the parser
    is an [Exception] and the output file accepts the records: the statistics
    it returns have [total] equal to the number of URLs read, which is at
    least 1 and at most the limit if one is given; [successful] is the number
    of records in the file written, and [successful + failed] is [total]. *)
Theorem file_run_statistics w path lines sink_before max_concurrent0 timeout0
    max_retries0 limit urls :
  read_urls_from_file (mkInputFile path (Some lines)) limit = Returned urls ->
  urls <> [] ->
  1 <= max_concurrent0 ->
  world_only_Exceptions w ->
  completes_all w urls ->
  writes_accepted w
    (results_of
       (completed w (mkURLFetcher max_concurrent0 timeout0 max_retries0 max_concurrent0)
          urls)) ->
  exists st sink_after failed,
    fetch_urls_from_file w (mkInputFile path (Some lines)) sink_before
      max_concurrent0 timeout0 max_retries0 limit = (Returned st, sink_after) /\
    st !! "total"%string = Some (Z.of_nat (length urls)) /\
    1 <= Z.of_nat (length urls) /\
    (forall l, limit = Some l -> Z.of_nat (length urls) <= l) /\
    st !! "successful"%string = Some (Z.of_nat (length sink_after)) /\
    st !! "failed"%string = Some failed /\
    Z.of_nat (length sink_after) + failed = Z.of_nat (length urls).
Proof.
  intros Hread Hne Hmc Honly Hall Hacc.
  assert (Hpos : 1 <= Z.of_nat (length urls))
    by (destruct urls; [contradiction | simpl; lia]).
  unfold fetch_urls_from_file. rewrite Hread.
  destruct urls as [| u0 urls0] eqn:Hurls; [contradiction |]. rewrite <- Hurls in *.
  unfold URLFetcher_init.
  replace (max_concurrent0 <? 0) with false by (symmetry; apply Z.ltb_ge; lia).
  set (fetcher := mkURLFetcher max_concurrent0 timeout0 max_retries0 max_concurrent0)
    in *.
  destruct (fetch_urls_all_returned w fetcher urls sink_before _
              (results_of_returned _ (completed_all_returned w fetcher urls Honly)) Hacc)
    as (st & Hrun & Ht & Ha & Hb).
  pose proof (count_written_unwritten (results_of (completed w fetcher urls))) as Hsum.
  pose proof (completed_length w fetcher urls Hall) as Hlen.
  rewrite (results_of_returned _ (completed_all_returned w fetcher urls Honly)),
    length_fmap in Hlen.
  exists st. do 2 eexists. split; [exact Hrun |].
  split; [exact Ht |]. split; [exact Hpos |].
  split.
  { intros l ->. rewrite read_urls_from_file_lines in Hread.
    rewrite collect_urls_limited in Hread by (simpl; lia).
    injection Hread as Htake. apply (f_equal length) in Htake.
    rewrite length_take in Htake. lia. }
  rewrite length_fmap.
  split; [exact Ha |]. split; [exact Hb |].
  unfold count_written in Hsum. lia.
Qed.

Lemma file_run_statistics_witness :
  (read_urls_from_file sample_input (Some 3) = Returned three_urls /\
   three_urls <> [] /\ 1 <= 5 /\
   world_only_Exceptions three_world /\ completes_all three_world three_urls /\
   writes_accepted three_world
     (results_of (completed three_world (mkURLFetcher 5 10 2 5) three_urls))) /\
  exists st sink_after failed,
    fetch_urls_from_file three_world sample_input [] 5 10 2 (Some 3) =
      (Returned st, sink_after) /\
    st !! "total"%string = Some 3 /\
    st !! "successful"%string = Some (Z.of_nat (length sink_after)) /\
    st !! "failed"%string = Some failed.
Proof.
  assert (Honly : world_only_Exceptions three_world).
  { intros i n e H. destruct i as [| [| i]]; simpl in H;
      first [discriminate | inversion H; reflexivity]. }
  assert (Hall : completes_all three_world three_urls).
  { unfold completes_all. apply (bool_decide_unpack _). vm_compute. exact I. }
  assert (Hacc : writes_accepted three_world
            (results_of (completed three_world (mkURLFetcher 5 10 2 5) three_urls)))
    by (apply always_accepted; reflexivity).
  split.
  - split; [reflexivity |]. split; [discriminate |]. split; [lia |].
    split; [exact Honly |]. split; assumption.
  - destruct (file_run_statistics three_world "src/6/1.csv" sample_file [] 5 10 2
                (Some 3) three_urls eq_refl ltac:(discriminate) ltac:(lia)
                Honly Hall Hacc)
      as (st & sink_after & failed & Hrun & Ht & _ & _ & Ha & Hb & _).
    exists st, sink_after, failed. repeat split; assumption.
Defined.

(** ** More on the semaphore *)

Lemma total_zero f l :
  Forall (fun t => f t = 0) l -> total f l = 0.
Proof.
  induction 1 as [| t l Ht _ IH]; simpl; lia.
Qed.

Lemma total_pos f l :
  0 < total f l -> exists i t, l !! i = Some t /\ 0 < f t.
Proof.
  induction l as [| x l IH]; simpl; intros Hpos; [lia |].
  destruct (Z.lt_ge_cases 0 (f x)) as [Hx | Hx].
  - exists 0%nat, x. split; [reflexivity | exact Hx].
  - destruct IH as (i & t & Hi & Ht); [lia |].
    exists (S i), t. split; assumption.
Qed.

Lemma task_ok_finished t :
  task_ok t -> future t = [] -> slots_held_by t = 0.
Proof.
  intros Hok Hdone.
  destruct (task_ok_counts t Hok) as (p & Hp & -> & _ & _).
  destruct Hok as (p' & q & Hp' & Hq & Hrest).
  rewrite Hp in Hp'. inversion Hp'; subst p'.
  rewrite Hdone in Hq. simpl in Hq. inversion Hq; subst q.
  destruct p; simpl in *; tauto.
Qed.

(** A task that holds a slot has a next event, and it is not an acquire. *)
Lemma holder_has_next t v :
  task_ok t ->
  0 < slots_held_by t ->
  exists e rest, future t = e :: rest /\ can_fire e v.
Proof.
  intros Hok Hheld.
  destruct (task_ok_counts t Hok) as (p & Hp & Hcount & _ & _).
  destruct Hok as (p' & q & Hp' & Hq & Hrest).
  rewrite Hp in Hp'. inversion Hp'; subst p'. rewrite Hcount in Hheld.
  destruct (future t) as [| e rest]; simpl in Hq.
  - inversion Hq; subst q. destruct p; simpl in *; first [lia | tauto].
  - exists e, rest. split; [reflexivity |].
    destruct p, e; simpl in *; first [lia | discriminate | exact I].
Qed.

(** Under a semaphore with at least one slot, a run with an unfinished task
    can go on. *)
Lemma sys_inv_progress cap sys i t :
  1 <= cap ->
  sys_inv cap sys ->
  runs sys !! i = Some t ->
  future t <> [] ->
  exists sys', step sys sys'.
Proof.
  intros Hcap (Hsem & Hsum & Hok) Hi Hfuture.
  destruct (Z.lt_ge_cases 0 (sem_value sys)) as [Hfree | Hfull].
  - destruct (future t) as [| e rest] eqn:Hfut; [contradiction |].
    eexists. eapply (step_task sys i t e rest); [exact Hi | exact Hfut |].
    destruct e; simpl; first [exact Hfree | exact I].
  - destruct (total_pos slots_held_by (runs sys)) as (j & tj & Hj & Hheld); [lia |].
    pose proof (proj1 (Forall_lookup _ _) Hok j tj Hj) as Hokj.
    destruct (holder_has_next tj (sem_value sys) Hokj Hheld) as (e & rest & Hfut & Hfire).
    eexists. eapply (step_task sys j tj e rest); eassumption.
Qed.

Lemma step_remaining sys sys' :
  step sys sys' -> remaining sys' = remaining sys - 1.
Proof.
  intros Hstep. destruct Hstep as [sys i t e rest Hi Hfut _].
  unfold remaining. simpl. rewrite (total_insert _ _ _ _ _ Hi).
  simpl. rewrite Hfut. simpl length. lia.
Qed.

Lemma remaining_nonneg sys : 0 <= remaining sys.
Proof.
  unfold remaining. induction (runs sys) as [| t l IH]; simpl; lia.
Qed.

Lemma remaining_zero_finished sys :
  remaining sys = 0 -> finished sys.
Proof.
  unfold remaining, finished.
  induction (runs sys) as [| t l IH]; simpl; intros Hzero; [constructor |].
  assert (Hl : 0 <= total (fun t0 => Z.of_nat (length (future t0))) l).
  { clear. induction l as [| x l IH]; simpl; lia. }
  constructor.
  - destruct (future t); [reflexivity | simpl in Hzero; lia].
  - apply IH. lia.
Qed.

Lemma init_capacity max_concurrent0 timeout0 max_retries0 self :
  URLFetcher_init max_concurrent0 timeout0 max_retries0 = Returned self ->
  semaphore self = max_concurrent self /\ 0 <= semaphore self /\
  max_concurrent self = max_concurrent0 /\ max_retries self = max_retries0.
Proof.
  unfold URLFetcher_init. intros Hinit.
  destruct (max_concurrent0 <? 0) eqn:Hneg; [discriminate |].
  apply Z.ltb_ge in Hneg. injection Hinit as <-. simpl. auto.
Qed.

(** X14. When every task of a run has ended, all slots are back: the value
    of the semaphore is [max_concurrent] again, whatever the tasks ended
    with. *)
Theorem finished_run_frees_all_slots w self urls sys max_concurrent0 timeout0 max_retries0 :
  URLFetcher_init max_concurrent0 timeout0 max_retries0 = Returned self ->
  reachable w self urls sys ->
  finished sys ->
  sem_value sys = max_concurrent self.
Proof.
  intros Hinit Hreach Hdone.
  destruct (init_capacity _ _ _ _ Hinit) as (Hcap & Hsem & _).
  destruct (reachable_inv w self urls sys Hsem Hreach) as (_ & Hsum & Hok).
  rewrite (total_zero slots_held_by (runs sys)) in Hsum; [lia |].
  unfold finished in Hdone.
  apply Forall_forall. intros t Hin.
  apply task_ok_finished.
  - exact (proj1 (Forall_forall _ _) Hok t Hin).
  - exact (proj1 (Forall_forall _ _) Hdone t Hin).
Qed.

Lemma finished_run_frees_all_slots_witness :
  exists sys,
    (URLFetcher_init 5 30 2 = Returned default_fetcher /\
     reachable null_world default_fetcher ["http://n"%string] sys /\
     finished sys) /\
    sem_value sys = max_concurrent default_fetcher.
Proof.
  assert (Hreach : exists sys,
            reachable null_world default_fetcher ["http://n"%string] sys /\
            finished sys).
  { eexists. split.
    - unfold reachable.
      eapply rtc_l.
      { eapply (step_task _ 0%nat); [reflexivity | reflexivity | simpl; lia]. }
      eapply rtc_l.
      { eapply (step_task _ 0%nat); [reflexivity | reflexivity | exact I]. }
      eapply rtc_l.
      { eapply (step_task _ 0%nat); [reflexivity | reflexivity | exact I]. }
      eapply rtc_l.
      { eapply (step_task _ 0%nat); [reflexivity | reflexivity | exact I]. }
      apply rtc_refl.
    - unfold finished. simpl. repeat constructor. }
  destruct Hreach as (sys & Hreach & Hdone).
  exists sys. split; [split; [reflexivity | split; assumption] |].
  apply (finished_run_frees_all_slots null_world default_fetcher
           ["http://n"%string] sys 5 30 2 eq_refl Hreach Hdone).
Defined.

(** X15. With [max_concurrent >= 1] the semaphore never blocks a run for
    good: in every reachable state in which some task has not ended, some
    task can take its next step. *)
Theorem unfinished_run_can_step w self urls sys max_concurrent0 timeout0 max_retries0 i t :
  URLFetcher_init max_concurrent0 timeout0 max_retries0 = Returned self ->
  1 <= max_concurrent0 ->
  reachable w self urls sys ->
  runs sys !! i = Some t ->
  future t <> [] ->
  exists sys', step sys sys'.
Proof.
  intros Hinit Hone Hreach Hi Hfuture.
  destruct (init_capacity _ _ _ _ Hinit) as (Hcap & Hsem & Hmc & _).
  eapply (sys_inv_progress (semaphore self)); [lia | | exact Hi | exact Hfuture].
  apply (reachable_inv w self urls sys Hsem Hreach).
Qed.

Lemma unfinished_run_can_step_witness :
  (URLFetcher_init 5 30 2 = Returned default_fetcher /\ 1 <= 5 /\
   reachable mixed_world default_fetcher mixed_urls
     (initial_system mixed_world default_fetcher mixed_urls) /\
   runs (initial_system mixed_world default_fetcher mixed_urls) !! 3%nat =
     Some (mkTaskRun [] (schedule "http://d" 3 0)) /\
   schedule "http://d" 3 0 <> []) /\
  exists sys', step (initial_system mixed_world default_fetcher mixed_urls) sys'.
Proof.
  assert (Hreach : reachable mixed_world default_fetcher mixed_urls
                     (initial_system mixed_world default_fetcher mixed_urls))
    by apply rtc_refl.
  split.
  - split; [reflexivity |]. split; [lia |]. split; [exact Hreach |].
    split; [reflexivity | discriminate].
  - apply (unfinished_run_can_step mixed_world default_fetcher mixed_urls
             (initial_system mixed_world default_fetcher mixed_urls) 5 30 2
             3%nat (mkTaskRun [] (schedule "http://d" 3 0)) eq_refl);
      [lia | exact Hreach | reflexivity | discriminate].
Defined.

(** With a retry budget every task starts by acquiring a slot. *)
Lemma initial_task_acquires w self urls i t :
  0 <= max_retries self ->
  runs (initial_system w self urls) !! i = Some t ->
  past t = [] /\ exists rest, future t = EvAcquire :: rest.
Proof.
  intros Hretries Hi. unfold initial_system, tasks in Hi. simpl in Hi.
  rewrite list_lookup_fmap, list_lookup_imap in Hi.
  destruct (urls !! i) as [u |]; [| discriminate].
  simpl in Hi. inversion Hi. simpl. split; [reflexivity |].
  destruct (run_task_post (json_loads w) self (oracle w i) u Hretries)
    as (m & _ & _ & Hev & _ & Hm & _).
  simpl in Hev. rewrite Hev.
  destruct m as [| m]; [lia |]. simpl. eauto.
Qed.

(** X16. With [max_concurrent = 0] a run over at least one URL never gets
    anywhere: no task can take its first step, so the initial state is the
    only reachable one and the run never ends. *)
Theorem zero_capacity_never_starts w self urls sys timeout0 max_retries0 :
  URLFetcher_init 0 timeout0 max_retries0 = Returned self ->
  0 <= max_retries0 ->
  urls <> [] ->
  reachable w self urls sys ->
  sys = initial_system w self urls /\ ~ finished sys.
Proof.
  intros Hinit Hretries Hne Hreach.
  destruct (init_capacity _ _ _ _ Hinit) as (Hcap & _ & Hmc & Hmr).
  assert (Hstuck : forall sys', ~ step (initial_system w self urls) sys').
  { intros sys' Hstep.
    inversion Hstep as [sys0 i t e rest Hi Hfut Hfire Hsys0 Hsys'].
    destruct (initial_task_acquires w self urls i t ltac:(lia) Hi)
      as (_ & rest' & Hacq).
    rewrite Hacq in Hfut. inversion Hfut; subst e.
    simpl in Hfire. lia. }
  assert (Hsys : sys = initial_system w self urls).
  { unfold reachable in Hreach. apply rtc_inv in Hreach.
    destruct Hreach as [<- | (sys1 & Hstep & _)]; [reflexivity |].
    exfalso. eapply Hstuck; exact Hstep. }
  split; [exact Hsys |].
  subst sys. unfold finished. intros Hdone.
  destruct urls as [| u urls']; [contradiction |].
  destruct (initial_task_acquires w self (u :: urls') 0%nat
              (mkTaskRun [] (events (snd (run_task (json_loads w) self (oracle w 0%nat) u))))
              ltac:(lia) eq_refl) as (_ & rest & Hacq).
  simpl in Hdone. inversion Hdone as [| t l Ht _]. simpl in Ht, Hacq.
  rewrite Ht in Hacq. discriminate.
Qed.

Lemma zero_capacity_never_starts_witness :
  (URLFetcher_init 0 30 2 = Returned zero_capacity_fetcher /\ 0 <= 2 /\
   mixed_urls <> [] /\
   reachable mixed_world zero_capacity_fetcher mixed_urls
     (initial_system mixed_world zero_capacity_fetcher mixed_urls)) /\
  ~ finished (initial_system mixed_world zero_capacity_fetcher mixed_urls).
Proof.
  assert (Hreach : reachable mixed_world zero_capacity_fetcher mixed_urls
                     (initial_system mixed_world zero_capacity_fetcher mixed_urls))
    by apply rtc_refl.
  split.
  - split; [reflexivity |]. split; [lia |]. split; [discriminate | exact Hreach].
  - apply (zero_capacity_never_starts mixed_world zero_capacity_fetcher mixed_urls
             (initial_system mixed_world zero_capacity_fetcher mixed_urls) 30 2
             eq_refl ltac:(lia) ltac:(discriminate) Hreach).
Defined.

Lemma nsteps_remaining n sys sys' :
  nsteps step n sys sys' -> Z.of_nat n = remaining sys - remaining sys'.
Proof.
  induction 1 as [sys | n sys sys1 sys2 Hstep _ IH]; [lia |].
  apply step_remaining in Hstep. lia.
Qed.

Lemma sys_inv_completes cap n : forall sys,
  1 <= cap ->
  sys_inv cap sys ->
  remaining sys = Z.of_nat n ->
  exists sys', nsteps step n sys sys' /\ finished sys'.
Proof.
  induction n as [| n IH]; intros sys Hcap Hinv Hrem.
  - exists sys. split; [constructor | apply remaining_zero_finished; lia].
  - destruct (total_pos (fun t => Z.of_nat (length (future t))) (runs sys))
      as (i & t & Hi & Ht); [unfold remaining in Hrem; lia |].
    destruct (sys_inv_progress cap sys i t Hcap Hinv Hi) as [sys1 Hstep].
    { intros Hnil. rewrite Hnil in Ht. simpl in Ht. lia. }
    destruct (IH sys1 Hcap (step_preserves_inv cap sys sys1 Hinv Hstep))
      as (sys' & Hsteps & Hdone).
    { rewrite (step_remaining sys sys1 Hstep). lia. }
    exists sys'. split; [econstructor; eassumption | exact Hdone].
Qed.

(** X17. With [max_concurrent >= 1] every run ends: from any reachable state,
    each step performs one of the events still ahead, so no execution is
    longer than their number, and the state in which every task has ended is
    reached after exactly that many steps. *)
Theorem every_run_ends w self urls sys max_concurrent0 timeout0 max_retries0 :
  URLFetcher_init max_concurrent0 timeout0 max_retries0 = Returned self ->
  1 <= max_concurrent0 ->
  reachable w self urls sys ->
  (forall n sys', nsteps step n sys sys' -> Z.of_nat n <= remaining sys) /\
  (exists sys', nsteps step (Z.to_nat (remaining sys)) sys sys' /\ finished sys').
Proof.
  intros Hinit Hone Hreach.
  destruct (init_capacity _ _ _ _ Hinit) as (Hcap & Hsem & Hmc & _).
  split.
  - intros n sys' Hsteps. apply nsteps_remaining in Hsteps.
    pose proof (remaining_nonneg sys'). lia.
  - apply (sys_inv_completes (semaphore self)).
    + lia.
    + apply (reachable_inv w self urls sys Hsem Hreach).
    + pose proof (remaining_nonneg sys). lia.
Qed.

Lemma every_run_ends_witness :
  (URLFetcher_init 1 30 2 = Returned (mkURLFetcher 1 30 2 1) /\ 1 <= 1 /\
   reachable mixed_world (mkURLFetcher 1 30 2 1) mixed_urls
     (initial_system mixed_world (mkURLFetcher 1 30 2 1) mixed_urls)) /\
  exists sys',
    nsteps step 44 (initial_system mixed_world (mkURLFetcher 1 30 2 1) mixed_urls) sys' /\
    finished sys'.
Proof.
  assert (Hreach : reachable mixed_world (mkURLFetcher 1 30 2 1) mixed_urls
                     (initial_system mixed_world (mkURLFetcher 1 30 2 1) mixed_urls))
    by apply rtc_refl.
  split.
  - split; [reflexivity |]. split; [lia | exact Hreach].
  - apply (every_run_ends mixed_world (mkURLFetcher 1 30 2 1) mixed_urls
             (initial_system mixed_world (mkURLFetcher 1 30 2 1) mixed_urls) 1 30 2
             eq_refl ltac:(lia) Hreach).
Defined.
